(** * Shallow embedding of the reconciliation engine of zeropool-js
    (src/src/client.ts): the multi-part transaction planner, the fee
    estimator, the optimistic sync worker and its single-flight guard, and
    the relayer polling loops. *)

From Stdlib Require Import ZArith List String Ascii Bool Lia.
Import ListNotations.
Open Scope Z_scope.

(* ------------------------------------------------------------------ *)
(** ** Constants and data (client.ts, lines 12-31) *)

Definition MIN_TX_AMOUNT : Z := 10000000.
Definition TX_FEE : Z := 10000000.

(** [TxAmount]: all values in Gwei, as bigint. *)
Record TxAmount := mkTxAmount {
  amount : Z;
  fee : Z;
  accountLimit : Z
}.

(** A note as returned by [state.usableNotes()]: only its value [b] is read. *)
Record Note := mkNote { b : Z }.

(** The part of [ZkBobState] read by the planner and the fee estimator:
    [usableNotes()] is an array of [index, note] pairs. *)
Record ZkBobState := mkZkBobState {
  usableNotes : list (Z * Note);
  accountBalance : Z
}.

Section Planner.

(** [CONSTANTS.IN]: the maximum number of input notes per transaction. *)
Variable IN : nat.

(** The first loop of [getTransactionParts] (lines 673-688): group the
    notes into chunks of [CONSTANTS.IN] and sum each chunk.  [i] is the loop
    index, [len] is [usableNotes.length]. *)
Fixpoint notesPartsLoop (len i : nat) (notes : list (Z * Note))
    (notesParts : list Z) (curPart : Z) : list Z :=
  match notes with
  | [] => notesParts
  | (_, curNote) :: rest =>
      let '(np, cp) :=
        if (0 <? i)%nat && (Nat.modulo i IN =? 0)%nat
        then (notesParts ++ [curPart], 0)
        else (notesParts, curPart) in
      let cp := cp + b curNote in
      let np := if (i =? len - 1)%nat then np ++ [cp] else np in
      notesPartsLoop len (S i) rest np cp
  end.

Definition notesParts (notes : list (Z * Note)) : list Z :=
  notesPartsLoop (List.length notes) 0 notes [] 0.

(** The second loop of [getTransactionParts] (lines 690-706), with its
    state [oneTxPart], [remainAmount] and [result]; the loop guard is
    [i < notesParts.length && remainAmount > 0] and [break] stops it. *)
Fixpoint partsLoop (feeGwei : Z) (parts : list Z) (oneTxPart remainAmount : Z)
    (result : list TxAmount) : list TxAmount * Z :=
  match parts with
  | [] => (result, remainAmount)
  | p :: rest =>
      if remainAmount >? 0 then
        let one := oneTxPart + p in
        let one := if one - feeGwei >? remainAmount then remainAmount + feeGwei else one in
        if (one <? feeGwei) || (one <? MIN_TX_AMOUNT) then (result, remainAmount)
        else partsLoop feeGwei rest 0 (remainAmount - (one - feeGwei))
               (result ++ [mkTxAmount (one - feeGwei) feeGwei 0])
      else (result, remainAmount)
  end.

(** [getTransactionParts] (lines 657-714), on the state after the optional
    [updateState]. *)
Definition getTransactionParts (state : ZkBobState) (amountGwei feeGwei : Z)
    : list TxAmount :=
  let accountBalance := accountBalance state in
  let remainAmount := amountGwei in
  if accountBalance >=? remainAmount + feeGwei then
    [mkTxAmount remainAmount feeGwei 0]
  else
    let '(result, remainAmount) :=
      partsLoop feeGwei (notesParts (usableNotes state)) accountBalance remainAmount [] in
    if remainAmount >? 0 then [] else result.

End Planner.

Definition sum_amounts (l : list TxAmount) : Z :=
  fold_right (fun p acc => amount p + acc) 0 l.

Definition mk_notes (vs : list Z) : list (Z * Note) :=
  map (fun v => (0, mkNote v)) vs.

Example planner_spec_example :
  getTransactionParts 3 (mkZkBobState (mk_notes [100;100;100;100;100]) 0) 250 10 = [].
Proof. reflexivity. Qed.

Example planner_chunks_example :
  notesParts 3 (mk_notes [1;2;3;4;5;6;7]) = [6; 15; 7].
Proof. reflexivity. Qed.

(* ------------------------------------------------------------------ *)
(** ** Planner lemmas *)

Lemma sum_amounts_app (l1 l2 : list TxAmount) :
  sum_amounts (l1 ++ l2) = sum_amounts l1 + sum_amounts l2.
Proof.
  induction l1 as [|p l1 IH]; simpl; [reflexivity|]. rewrite IH. lia.
Qed.

Lemma Z_gtb_false (x y : Z) : (x >? y) = false -> x <= y.
Proof. rewrite Z.gtb_ltb, Z.ltb_ge. lia. Qed.

(** The second loop preserves [Σ amounts + remainAmount], and either does
    nothing or leaves a non-negative remainder. *)
Lemma partsLoop_invariant (feeGwei : Z) (parts : list Z) :
  forall oneTxPart remainAmount result result' remainAmount',
    partsLoop feeGwei parts oneTxPart remainAmount result = (result', remainAmount') ->
    sum_amounts result' + remainAmount' = sum_amounts result + remainAmount /\
    ((result' = result /\ remainAmount' = remainAmount) \/ 0 <= remainAmount').
Proof.
  induction parts as [|p rest IH]; intros one r res res' r' Hl; simpl in Hl.
  - inversion Hl; subst. split; [reflexivity | left; split; reflexivity].
  - destruct (r >? 0) eqn:Hr; [|inversion Hl; subst; split; [reflexivity | left; split; reflexivity]].
    set (one1 := if one + p - feeGwei >? r then r + feeGwei else one + p) in Hl.
    destruct ((one1 <? feeGwei) || (one1 <? MIN_TX_AMOUNT)) eqn:Hb;
      [inversion Hl; subst; split; [reflexivity | left; split; reflexivity]|].
    apply orb_false_iff in Hb as [Hb1 _]. apply Z.ltb_ge in Hb1.
    assert (Hle : one1 - feeGwei <= r).
    { unfold one1. destruct (one + p - feeGwei >? r) eqn:E; [lia|]. apply Z_gtb_false in E. lia. }
    destruct (IH _ _ _ _ _ Hl) as [Hs Hor].
    rewrite sum_amounts_app in Hs. simpl in Hs.
    split; [lia|]. right. destruct Hor as [[_ ->]|Hor]; lia.
Qed.

(** Every part pushed by the second loop has [amount + fee >= MIN_TX_AMOUNT]. *)
Lemma partsLoop_min (feeGwei : Z) (parts : list Z) :
  forall oneTxPart remainAmount result result' remainAmount',
    partsLoop feeGwei parts oneTxPart remainAmount result = (result', remainAmount') ->
    Forall (fun t => MIN_TX_AMOUNT <= amount t + fee t) result ->
    Forall (fun t => MIN_TX_AMOUNT <= amount t + fee t) result'.
Proof.
  induction parts as [|p rest IH]; intros one r res res' r' Hl Hf; simpl in Hl.
  - inversion Hl; subst; exact Hf.
  - destruct (r >? 0); [|inversion Hl; subst; exact Hf].
    set (one1 := if one + p - feeGwei >? r then r + feeGwei else one + p) in Hl.
    destruct ((one1 <? feeGwei) || (one1 <? MIN_TX_AMOUNT)) eqn:Hb;
      [inversion Hl; subst; exact Hf|].
    apply orb_false_iff in Hb as [_ Hb2]. apply Z.ltb_ge in Hb2.
    apply (IH _ _ _ _ _ Hl). apply Forall_app. split; [exact Hf|].
    constructor; [simpl; lia | constructor].
Qed.

(** C1: the plan is empty or its amounts sum to exactly [amountGwei]. *)
Theorem getTransactionParts_all_or_nothing (IN : nat) (state : ZkBobState)
    (amountGwei feeGwei : Z) :
  getTransactionParts IN state amountGwei feeGwei = [] \/
  sum_amounts (getTransactionParts IN state amountGwei feeGwei) = amountGwei.
Proof.
  unfold getTransactionParts.
  destruct (accountBalance state >=? amountGwei + feeGwei).
  - right. simpl. lia.
  - destruct (partsLoop feeGwei (notesParts IN (usableNotes state)) (accountBalance state) amountGwei [])
      as [res r] eqn:Hl.
    destruct (partsLoop_invariant _ _ _ _ _ _ _ Hl) as [Hs Hor].
    destruct (r >? 0) eqn:Hr; [left; reflexivity|].
    apply Z_gtb_false in Hr. simpl in Hs.
    destruct Hor as [[-> _]|Hor]; [left; reflexivity|]. right. lia.
Qed.

(** C10: on the note-chunk path every part has [amount + fee >=
    MIN_TX_AMOUNT]; the single-part path (taken when [accountBalance >=
    amountGwei + feeGwei]) returns [{amountGwei, feeGwei, 0}] unchecked, so
    with [amountGwei = 0] and [feeGwei = 0] a non-empty plan below the floor
    is returned. *)
Theorem getTransactionParts_min_floor_notes_only (IN : nat) (state : ZkBobState)
    (amountGwei feeGwei : Z) (t : TxAmount) :
  (accountBalance state < amountGwei + feeGwei ->
   In t (getTransactionParts IN state amountGwei feeGwei) ->
   MIN_TX_AMOUNT <= amount t + fee t) /\
  (amountGwei + feeGwei <= accountBalance state ->
   getTransactionParts IN state amountGwei feeGwei = [mkTxAmount amountGwei feeGwei 0]) /\
  (getTransactionParts IN (mkZkBobState [] 0) 0 0 = [mkTxAmount 0 0 0] /\
   0 + 0 < MIN_TX_AMOUNT).
Proof.
  split; [|split].
  - intros Hlt Hin. unfold getTransactionParts in Hin.
    replace (accountBalance state >=? amountGwei + feeGwei) with false in Hin
      by (symmetry; rewrite Z.geb_leb; apply Z.leb_gt; lia).
    destruct (partsLoop feeGwei (notesParts IN (usableNotes state)) (accountBalance state) amountGwei [])
      as [res r] eqn:Hl.
    destruct (r >? 0); [destruct Hin|].
    pose proof (partsLoop_min _ _ _ _ _ _ _ Hl (Forall_nil _)) as Hf.
    rewrite Forall_forall in Hf. exact (Hf t Hin).
  - intros Hge. unfold getTransactionParts.
    replace (accountBalance state >=? amountGwei + feeGwei) with true
      by (symmetry; rewrite Z.geb_leb; apply Z.leb_le; lia).
    reflexivity.
  - split; [reflexivity | unfold MIN_TX_AMOUNT; lia].
Qed.

Lemma getTransactionParts_min_floor_notes_only_witness :
  0 < 15000000 + 1000000 /\
  In (mkTxAmount 15000000 1000000 0)
     (getTransactionParts 3 (mkZkBobState (mk_notes [20000000]) 0) 15000000 1000000) /\
  MIN_TX_AMOUNT <= 15000000 + 1000000.
Proof.
  split; [lia|]. split; [vm_compute; left; reflexivity|].
  apply (proj1 (getTransactionParts_min_floor_notes_only 3 (mkZkBobState (mk_notes [20000000]) 0)
                  15000000 1000000 (mkTxAmount 15000000 1000000 0))).
  - simpl. lia.
  - vm_compute. left. reflexivity.
Defined.

(* ------------------------------------------------------------------ *)
(** ** Fee estimator (client.ts, lines 584-653) *)

(** [getRelayerFee]: the cached relayer fee is only ever set to [TX_FEE];
    [atomicTxFee] adds the zero L1 component. *)
Definition getRelayerFee : Z := TX_FEE.
Definition atomicTxFee : Z := getRelayerFee + 0.

(** [Math.ceil(a / b)] on the non-negative integer quotient of two array
    lengths ([a < 2^53], so the double division rounds to no integer it does
    not equal): the ceiling of the rational quotient. *)
Definition js_ceil_div (a b : Z) : Z := - ((- a) / b).

Section FeeEstimator.

Variable IN : nat.

(** [calcMaxAvailableTransfer] (lines 624-653). *)
Definition calcMaxAvailableTransfer (state : ZkBobState) : Z :=
  let txFee := atomicTxFee in
  let notes := usableNotes state in
  let accountBalance := accountBalance state in
  let n := Z.of_nat (List.length notes) in
  let inN := Z.of_nat IN in
  let txCnt := 1 in
  let txCnt := if n >? inN then txCnt + js_ceil_div (n - inN) inN else txCnt in
  let notesBalance := fold_left (fun acc '(_, curNote) => acc + b curNote) notes 0 in
  let summ := accountBalance + notesBalance - txFee * txCnt in
  if summ <? 0 then 0 else summ.

(** The formula of the spec (4.3), read literally, with [feePerTx] as a
    parameter. *)
Definition ceil_quot (a q : Z) : Z := if a mod q =? 0 then a / q else a / q + 1.

Definition calcMaxAvailableTransfer_spec (feePerTx : Z) (state : ZkBobState) : Z :=
  let noteCount := Z.of_nat (List.length (usableNotes state)) in
  let MAX_INPUTS := Z.of_nat IN in
  let estimatedPartCount := 1 + ceil_quot (Z.max 0 (noteCount - MAX_INPUTS)) MAX_INPUTS in
  Z.max 0 (accountBalance state
           + fold_right (fun '(_, n) acc => b n + acc) 0 (usableNotes state)
           - feePerTx * estimatedPartCount).

End FeeEstimator.

Example calcMaxAvailableTransfer_example :
  calcMaxAvailableTransfer 3 (mkZkBobState (mk_notes [1;2;3;4;5;6;7]) 100000000)
  = 100000028 - 3 * TX_FEE.
Proof. reflexivity. Qed.

(* ------------------------------------------------------------------ *)
(** ** History records and the optimistic balance (client.ts, lines 200-228) *)

Module History.

(** Modelled from the spec: [HistoryTransactionType] of src/history.ts
    (not in the sources), whose four kinds the spec lists in its data
    model. *)
Inductive HistoryTransactionType :=
| Deposit
| TransferIn
| TransferOut
| Withdrawal.

(** Modelled from the spec: the fields of [HistoryRecord] (src/history.ts)
    that [getOptimisticTotalBalance] reads. *)
Record HistoryRecord := mkHistoryRecord {
  type : HistoryTransactionType;
  amount : Z;
  fee : Z;
  pending : bool
}.

(** The loop body of [getOptimisticTotalBalance] on one record. *)
Definition stepPendingDelta (pendingDelta : Z) (oneRecord : HistoryRecord) : Z :=
  if pending oneRecord then
    match type oneRecord with
    | Deposit | TransferIn => pendingDelta + amount oneRecord
    | Withdrawal | TransferOut => pendingDelta - (amount oneRecord + fee oneRecord)
    end
  else pendingDelta.

(** [getOptimisticTotalBalance], given the [confirmedBalance] returned by
    [getTotalBalance] and the records returned by [getAllHistory]. *)
Definition getOptimisticTotalBalance (confirmedBalance : Z)
    (historyRecords : list HistoryRecord) : Z :=
  let pendingDelta := fold_left stepPendingDelta historyRecords 0 in
  confirmedBalance + pendingDelta.

Definition is_incoming (r : HistoryRecord) : bool :=
  match type r with Deposit | TransferIn => true | _ => false end.

Definition sumZ (l : list Z) : Z := fold_right Z.add 0 l.

(** The spec's formula: confirmed + Σ pending incoming amounts −
    Σ (pending outgoing amount + fee). *)
Definition optimisticBalance_spec (confirmedBalance : Z) (rs : list HistoryRecord) : Z :=
  confirmedBalance
  + sumZ (map amount (filter (fun r => pending r && is_incoming r) rs))
  - sumZ (map (fun r => amount r + fee r) (filter (fun r => pending r && negb (is_incoming r)) rs)).

End History.

(* ------------------------------------------------------------------ *)
(** ** Fee estimator and history lemmas *)

Lemma js_ceil_div_ceil_quot (a q : Z) : 0 < q -> js_ceil_div a q = ceil_quot a q.
Proof.
  intros Hq. unfold js_ceil_div, ceil_quot.
  pose proof (Z.div_mod a q ltac:(lia)) as Ha.
  pose proof (Z.mod_pos_bound a q Hq) as Hr.
  set (d := a / q) in *. set (r := a mod q) in *.
  destruct (r =? 0) eqn:Er.
  - apply Z.eqb_eq in Er.
    assert (E : - a / q = - d) by (symmetry; apply Z.div_unique with 0; lia).
    rewrite E. lia.
  - apply Z.eqb_neq in Er.
    assert (E : - a / q = - d - 1) by (symmetry; apply Z.div_unique with (q - r); lia).
    rewrite E. lia.
Qed.

Lemma fold_left_notes_balance (l : list (Z * Note)) (acc : Z) :
  fold_left (fun acc '(_, curNote) => acc + b curNote) l acc
  = acc + fold_right (fun '(_, n) acc => b n + acc) 0 l.
Proof.
  revert acc; induction l as [|[i n] l IH]; intros acc; simpl; [lia|].
  rewrite IH. lia.
Qed.

(** C5: [calcMaxAvailableTransfer] is [max(0, accountBalance + Σ notes −
    feePerTx × estimatedPartCount)] with [estimatedPartCount = 1 +
    ceil(max(0, noteCount − MAX_INPUTS) / MAX_INPUTS)], in integer
    arithmetic, where [feePerTx] is the atomic transaction fee. *)
Theorem calcMaxAvailableTransfer_formula (IN : nat) (HIN : (0 < IN)%nat)
    (state : ZkBobState) :
  calcMaxAvailableTransfer IN state = calcMaxAvailableTransfer_spec IN atomicTxFee state.
Proof.
  unfold calcMaxAvailableTransfer, calcMaxAvailableTransfer_spec.
  rewrite fold_left_notes_balance.
  set (n := Z.of_nat (List.length (usableNotes state))).
  set (q := Z.of_nat IN).
  set (S := fold_right (fun '(_, n) acc => b n + acc) 0 (usableNotes state)).
  assert (Hq : 0 < q) by (unfold q; lia).
  assert (Hcnt : (if n >? q then 1 + js_ceil_div (n - q) q else 1)
                 = 1 + ceil_quot (Z.max 0 (n - q)) q).
  { destruct (n >? q) eqn:E.
    - rewrite Z.gtb_ltb, Z.ltb_lt in E.
      rewrite Z.max_r by lia. rewrite js_ceil_div_ceil_quot by exact Hq. reflexivity.
    - apply Z_gtb_false in E. rewrite Z.max_l by lia.
      unfold ceil_quot. rewrite Z.mod_0_l, Z.div_0_l by lia. reflexivity. }
  rewrite Hcnt, Z.add_0_l.
  set (summ := accountBalance state + S - atomicTxFee * (1 + ceil_quot (Z.max 0 (n - q)) q)).
  destruct (summ <? 0) eqn:E.
  - apply Z.ltb_lt in E. rewrite Z.max_l; lia.
  - apply Z.ltb_ge in E. rewrite Z.max_r; lia.
Qed.

Lemma calcMaxAvailableTransfer_formula_witness :
  (0 < 3)%nat /\
  calcMaxAvailableTransfer 3 (mkZkBobState (mk_notes [1;2;3;4;5;6;7]) 100000000)
  = calcMaxAvailableTransfer_spec 3 atomicTxFee (mkZkBobState (mk_notes [1;2;3;4;5;6;7]) 100000000).
Proof.
  split; [lia|]. apply calcMaxAvailableTransfer_formula. lia.
Defined.

Lemma fold_left_pendingDelta (rs : list History.HistoryRecord) (acc : Z) :
  fold_left History.stepPendingDelta rs acc
  = History.optimisticBalance_spec acc rs.
Proof.
  revert acc; induction rs as [|r rs IH]; intros acc.
  - unfold History.optimisticBalance_spec; simpl. lia.
  - simpl. rewrite IH. unfold History.optimisticBalance_spec, History.stepPendingDelta,
      History.is_incoming; simpl.
    destruct (History.pending r); simpl; [|reflexivity].
    destruct (History.type r); simpl; lia.
Qed.

(** C4: the optimistic balance is the confirmed balance plus the pending
    incoming amounts (Deposit, TransferIn) minus the pending outgoing
    amounts and fees (Withdrawal, TransferOut); settled records count for
    nothing. *)
Theorem getOptimisticTotalBalance_formula (confirmedBalance : Z)
    (historyRecords : list History.HistoryRecord) :
  History.getOptimisticTotalBalance confirmedBalance historyRecords
  = History.optimisticBalance_spec confirmedBalance historyRecords.
Proof.
  unfold History.getOptimisticTotalBalance. rewrite fold_left_pendingDelta.
  unfold History.optimisticBalance_spec. lia.
Qed.

(* ------------------------------------------------------------------ *)
(** ** The optimistic sync worker (client.ts, lines 776-909) *)

(** [IndexedTx] of the wasm package: the unit passed to [parseTxs]. *)
Module IndexedTx.
Record t := mk { index : Z; memo : string; commitment : string }.
End IndexedTx.

(** [DecryptedMemo] of the wasm package: the fields the worker reads or
    writes ([acc] is present for a memo that carries our own account). *)
Module DecryptedMemo.
Record t := mk { index : Z; acc : option unit; txHash : option string }.
End DecryptedMemo.

Record BatchResult := mkBatchResult {
  txCount : Z;
  maxMinedIndex : Z;
  maxPendingIndex : Z
}.

(** The effects of one sync cycle, in the order they are issued. *)
Inductive SyncEvent :=
| Info
| FetchTransactionsOptimistic (offset limit : Z)
| ParseTxs (txs : list IndexedTx.t)
| AccountUpdateState
| SaveDecryptedMemo (m : DecryptedMemo.t) (pending : bool)
| SetLastMinedTxIndex (i : Z)
| SetLastPendingTxIndex (i : Z).

(** JS [s.substr(start, len)] and [s.slice(start)] for [start >= 0]. *)
Definition js_substr (start len : nat) (s : string) : string := substring start len s.
Definition js_slice (start : nat) (s : string) : string :=
  substring start (String.length s - start) s.

(** [txHashes] / [txHashesPending]: objects keyed by leaf index. *)
Fixpoint lookup_hash (k : Z) (m : list (Z * string)) : option string :=
  match m with
  | [] => None
  | (k', v) :: m' => if Z.eqb k k' then Some v else lookup_hash k m'
  end.

(** The state of the classification loop (lines 807-847). *)
Record Classify := mkClassify {
  txHashes : list (Z * string);
  indexedTxs : list IndexedTx.t;
  txHashesPending : list (Z * string);
  indexedTxsPending : list IndexedTx.t;
  cMaxMinedIndex : Z;
  cMaxPendingIndex : Z
}.

Definition emptyClassify : Classify := mkClassify [] [] [] [] (-1) (-1).

Section Sync.

(** [CONSTANTS.OUT]: outputs per transaction. *)
Variable OUT : nat.

Definition OUTPLUSONE : Z := Z.of_nat OUT + 1.
Definition BATCH_SIZE : Z := 10000.

(** The relayer: [info().deltaIndex] and [fetchTransactionsOptimistic]. *)
Variable deltaIndex : Z.
Variable fetchTxs : Z -> Z -> list string.

(** The crypto worker: [parseTxs(sk, txs)] returns the decrypted memos and
    a state update, which [account.updateState] applies to the account's
    [nextTreeIndex]. *)
Variable StateUpdate : Type.
Variable parseTxs : list IndexedTx.t -> list DecryptedMemo.t * StateUpdate.
Variable applyStateUpdate : Z -> StateUpdate -> Z.

(** Loop body on one raw entry [tx] at position [txIdx] of the batch that
    starts at [i] (lines 817-846). *)
Definition classifyOne (i : Z) (txIdx : nat) (tx : string) (c : Classify) : Classify :=
  let memo_idx := i + Z.of_nat txIdx * OUTPLUSONE in
  let memo := js_slice 129 tx in
  let commitment := js_substr 65 64 tx in
  let indexedTx := IndexedTx.mk memo_idx memo commitment in
  let txHash := js_substr 1 64 tx in
  if String.eqb (js_substr 0 1 tx) "1"%string then
    mkClassify ((memo_idx, ("0x" ++ txHash)%string) :: txHashes c) (indexedTxs c ++ [indexedTx])
      (txHashesPending c) (indexedTxsPending c)
      (Z.max (cMaxMinedIndex c) memo_idx) (cMaxPendingIndex c)
  else
    mkClassify (txHashes c) (indexedTxs c)
      ((memo_idx, ("0x" ++ txHash)%string) :: txHashesPending c) (indexedTxsPending c ++ [indexedTx])
      (cMaxMinedIndex c) (Z.max (cMaxPendingIndex c) memo_idx).

Fixpoint classifyLoop (i : Z) (txIdx : nat) (txs : list string) (c : Classify) : Classify :=
  match txs with
  | [] => c
  | tx :: rest => classifyLoop i (S txIdx) rest (classifyOne i txIdx tx c)
  end.

(** The mutable state a batch callback touches: the account's
    [nextTreeIndex], the shared [readyToTransact] flag and the effect log. *)
Record SyncState := mkSyncState {
  nextTreeIndex : Z;
  readyToTransact : bool;
  events : list SyncEvent
}.

Definition emit (e : list SyncEvent) (s : SyncState) : SyncState :=
  mkSyncState (nextTreeIndex s) (readyToTransact s) (events s ++ e).

(** The batch callback (lines 804-880) on the entries [txs] fetched from
    offset [i]. *)
Definition processBatch (i : Z) (txs : list string) (s : SyncState)
    : BatchResult * SyncState :=
  let c := classifyLoop i 0 txs emptyClassify in
  let s :=
    if negb (List.length (indexedTxs c) =? 0)%nat then
      let '(decryptedMemos, stateUpdate) := parseTxs (indexedTxs c) in
      let s := emit [ParseTxs (indexedTxs c)] s in
      let s := mkSyncState (applyStateUpdate (nextTreeIndex s) stateUpdate)
                 (readyToTransact s) (events s ++ [AccountUpdateState]) in
      emit (map (fun m => SaveDecryptedMemo
                  (DecryptedMemo.mk (DecryptedMemo.index m) (DecryptedMemo.acc m)
                     (lookup_hash (DecryptedMemo.index m) (txHashes c))) false)
                decryptedMemos) s
    else s in
  let s :=
    if negb (List.length (indexedTxsPending c) =? 0)%nat then
      let '(decryptedPendingMemos, _) := parseTxs (indexedTxsPending c) in
      let s := emit [ParseTxs (indexedTxsPending c)] s in
      let s := emit (map (fun m => SaveDecryptedMemo
                  (DecryptedMemo.mk (DecryptedMemo.index m) (DecryptedMemo.acc m)
                     (lookup_hash (DecryptedMemo.index m) (txHashesPending c))) true)
                decryptedPendingMemos) s in
      mkSyncState (nextTreeIndex s)
        (readyToTransact s &&
         forallb (fun m => match DecryptedMemo.acc m with None => true | Some _ => false end)
           decryptedPendingMemos)
        (events s)
    else s in
  (mkBatchResult (Z.of_nat (List.length txs)) (cMaxMinedIndex c) (cMaxPendingIndex c), s).

(** The batch loop header [for (i = startIndex; i <= nextIndex; i +=
    BATCH_SIZE * OUTPLUSONE)]; the step is at least 1, so [fuel] iterations
    of [nextIndex - startIndex + 1] always suffice. *)
Fixpoint batchOffsets (fuel : nat) (i nextIndex : Z) : list Z :=
  match fuel with
  | O => []
  | S f => if i <=? nextIndex then i :: batchOffsets f (i + BATCH_SIZE * OUTPLUSONE) nextIndex
           else []
  end.

Definition reduceBatch (acc cur : BatchResult) : BatchResult :=
  mkBatchResult (txCount acc + txCount cur)
    (Z.max (maxMinedIndex acc) (maxMinedIndex cur))
    (Z.max (maxPendingIndex acc) (maxPendingIndex cur)).

Fixpoint processBatches (offsets : list Z) (s : SyncState) : list BatchResult * SyncState :=
  match offsets with
  | [] => ([], s)
  | i :: rest =>
      let '(r, s) := processBatch i (fetchTxs i BATCH_SIZE) s in
      let '(rs, s) := processBatches rest s in
      (r :: rs, s)
  end.

(** [updateStateOptimisticWorker] (lines 780-909).  All fetches are
    issued by the loop before any batch callback runs; the callbacks are
    then run in loop order (one admissible schedule of [Promise.all]). *)
Definition updateStateOptimisticWorker (s : SyncState) : bool * SyncState :=
  let startIndex := nextTreeIndex s in
  let s := emit [Info] s in
  let nextIndex := deltaIndex in
  let optimisticIndex := nextIndex + 1 in
  if optimisticIndex >? startIndex then
    let s := mkSyncState (nextTreeIndex s) true (events s) in
    let offsets := batchOffsets (S (Z.to_nat (nextIndex - startIndex))) startIndex nextIndex in
    let s := emit (map (fun i => FetchTransactionsOptimistic i BATCH_SIZE) offsets) s in
    let '(results, s) := processBatches offsets s in
    let totalRes := fold_left reduceBatch results (mkBatchResult 0 (-1) (-1)) in
    let s := emit [SetLastMinedTxIndex (maxMinedIndex totalRes);
                   SetLastPendingTxIndex (maxPendingIndex totalRes)] s in
    (readyToTransact s, s)
  else (true, s).

End Sync.

Definition is_fetch (e : SyncEvent) : bool :=
  match e with FetchTransactionsOptimistic _ _ => true | _ => false end.

Definition fetchCount (es : list SyncEvent) : nat := List.length (filter is_fetch es).

(** The raw entry layout of the spec (section 6), as character ranges:
    character 0 is the mined flag, characters [lo..hi] a field. *)
Definition entry_mined_spec (tx : string) : bool :=
  match list_ascii_of_string tx with
  | c :: _ => Ascii.eqb c "1"%char
  | [] => false
  end.

Definition char_range (lo hi : nat) (tx : string) : string :=
  string_of_list_ascii (firstn (hi - lo + 1) (skipn lo (list_ascii_of_string tx))).

Definition chars_from (lo : nat) (tx : string) : string :=
  string_of_list_ascii (skipn lo (list_ascii_of_string tx)).

Fixpoint enum_from (k : nat) (l : list string) : list (nat * string) :=
  match l with
  | [] => []
  | x :: l' => (k, x) :: enum_from (S k) l'
  end.

(** The mined (resp. pending) entries of a batch starting at [i], with the
    fields cut at the spec's offsets. *)
Definition entries_spec (OUT : nat) (mined : bool) (i : Z) (k : nat) (txs : list string)
    : list IndexedTx.t :=
  map (fun '(j, tx) => IndexedTx.mk (i + Z.of_nat j * OUTPLUSONE OUT)
                          (chars_from 129 tx) (char_range 65 128 tx))
      (filter (fun '(_, tx) => Bool.eqb (entry_mined_spec tx) mined) (enum_from k txs)).

Definition hashes_spec (OUT : nat) (mined : bool) (i : Z) (k : nat) (txs : list string)
    : list (Z * string) :=
  map (fun '(j, tx) => (i + Z.of_nat j * OUTPLUSONE OUT, ("0x" ++ char_range 1 64 tx)%string))
      (filter (fun '(_, tx) => Bool.eqb (entry_mined_spec tx) mined) (enum_from k txs)).

Definition is_parse (e : SyncEvent) : bool :=
  match e with ParseTxs _ => true | _ => false end.

(* ------------------------------------------------------------------ *)
(** ** Sync worker lemmas *)

Lemma substring_as_list (s : string) :
  forall n m, substring n m s = string_of_list_ascii (firstn m (skipn n (list_ascii_of_string s))).
Proof.
  induction s as [|c s IH]; intros n m.
  - destruct n, m; reflexivity.
  - destruct n as [|n].
    + destruct m as [|m]; [reflexivity|]. simpl. rewrite IH. reflexivity.
    + simpl. apply IH.
Qed.

Lemma length_list_ascii (s : string) : List.length (list_ascii_of_string s) = String.length s.
Proof. induction s as [|c s IH]; simpl; [reflexivity | rewrite IH; reflexivity]. Qed.

Lemma js_slice_spec (n : nat) (tx : string) : js_slice n tx = chars_from n tx.
Proof.
  unfold js_slice, chars_from. rewrite substring_as_list. f_equal.
  apply firstn_all2. rewrite length_skipn, length_list_ascii. lia.
Qed.

Lemma js_substr_spec (lo hi : nat) (tx : string) :
  (lo <= hi)%nat -> js_substr lo (hi - lo + 1) tx = char_range lo hi tx.
Proof. intros _. unfold js_substr, char_range. apply substring_as_list. Qed.

Lemma mined_flag_spec (tx : string) :
  String.eqb (js_substr 0 1 tx) "1"%string = entry_mined_spec tx.
Proof.
  destruct tx as [|c s]; [reflexivity|]. unfold entry_mined_spec. simpl.
  unfold js_substr. destruct s; destruct (Ascii.eqb c "1"%char); reflexivity.
Qed.

Lemma classifyLoop_spec (OUT : nat) (i : Z) (txs : list string) :
  forall k c,
    indexedTxs (classifyLoop OUT i k txs c) = indexedTxs c ++ entries_spec OUT true i k txs /\
    indexedTxsPending (classifyLoop OUT i k txs c)
      = indexedTxsPending c ++ entries_spec OUT false i k txs /\
    txHashes (classifyLoop OUT i k txs c) = rev (hashes_spec OUT true i k txs) ++ txHashes c /\
    txHashesPending (classifyLoop OUT i k txs c)
      = rev (hashes_spec OUT false i k txs) ++ txHashesPending c.
Proof.
  induction txs as [|tx rest IH]; intros k c.
  - simpl. rewrite !app_nil_r. repeat split; reflexivity.
  - simpl classifyLoop.
    destruct (IH (S k) (classifyOne OUT i k tx c)) as (H1 & H2 & H3 & H4).
    rewrite H1, H2, H3, H4. clear H1 H2 H3 H4.
    unfold classifyOne, entries_spec, hashes_spec. simpl enum_from.
    rewrite mined_flag_spec, js_slice_spec.
    rewrite (js_substr_spec 65 128) by lia. rewrite (js_substr_spec 1 64) by lia.
    simpl filter. destruct (entry_mined_spec tx); simpl; rewrite <- ?app_assoc; repeat split; reflexivity.
Qed.

Lemma filter_parse_saves (f : DecryptedMemo.t -> DecryptedMemo.t) (p : bool)
    (l : list DecryptedMemo.t) :
  filter is_parse (map (fun m => SaveDecryptedMemo (f m) p) l) = [].
Proof. induction l; simpl; auto. Qed.

Definition parse_call (l : list IndexedTx.t) : list SyncEvent :=
  match l with [] => [] | _ => [ParseTxs l] end.

(** C7: in a batch fetched from offset [i], character 0 of each raw entry
    classifies it (mined iff it is ['1']), characters 1-64 are its tx hash,
    65-128 its commitment and 129 onward its memo; the mined entries and the
    pending entries go to two separate [parseTxs] calls. *)
Theorem processBatch_entry_layout (OUT : nat) (StateUpdate : Type)
    (parseTxs : list IndexedTx.t -> list DecryptedMemo.t * StateUpdate)
    (applyStateUpdate : Z -> StateUpdate -> Z) (i : Z) (txs : list string) (s : SyncState) :
  let c := classifyLoop OUT i 0 txs emptyClassify in
  indexedTxs c = entries_spec OUT true i 0 txs /\
  indexedTxsPending c = entries_spec OUT false i 0 txs /\
  txHashes c = rev (hashes_spec OUT true i 0 txs) /\
  txHashesPending c = rev (hashes_spec OUT false i 0 txs) /\
  filter is_parse (events (snd (processBatch OUT StateUpdate parseTxs applyStateUpdate i txs s)))
  = filter is_parse (events s)
    ++ parse_call (entries_spec OUT true i 0 txs)
    ++ parse_call (entries_spec OUT false i 0 txs).
Proof.
  intros c. subst c.
  destruct (classifyLoop_spec OUT i txs 0 emptyClassify) as (H1 & H2 & H3 & H4).
  simpl in H1, H2, H3, H4. rewrite app_nil_r in H3, H4.
  split; [exact H1|]. split; [exact H2|]. split; [exact H3|]. split; [exact H4|].
  unfold processBatch. cbv zeta. rewrite H1, H2.
  destruct (entries_spec OUT true i 0 txs) as [|m ms] eqn:Em;
  destruct (entries_spec OUT false i 0 txs) as [|q qs] eqn:Ep; simpl.
  - rewrite app_nil_r. reflexivity.
  - destruct (parseTxs (q :: qs)). simpl.
    rewrite !filter_app, filter_parse_saves. simpl. rewrite !app_nil_r. reflexivity.
  - destruct (parseTxs (m :: ms)). simpl.
    rewrite !filter_app, filter_parse_saves. simpl. rewrite !app_nil_r. reflexivity.
  - destruct (parseTxs (m :: ms)). destruct (parseTxs (q :: qs)). simpl.
    rewrite !filter_app, !filter_parse_saves. simpl. rewrite !app_nil_r, <- !app_assoc. reflexivity.
Qed.

Lemma fetchCount_app (l1 l2 : list SyncEvent) :
  fetchCount (l1 ++ l2) = (fetchCount l1 + fetchCount l2)%nat.
Proof. unfold fetchCount. rewrite filter_app, length_app. reflexivity. Qed.

Lemma processBatch_extends (OUT : nat) (SU : Type) (p : list IndexedTx.t -> list DecryptedMemo.t * SU)
    (a : Z -> SU -> Z) (i : Z) (txs : list string) (s : SyncState) :
  exists e, events (snd (processBatch OUT SU p a i txs s)) = events s ++ e.
Proof.
  destruct s as [n r ev]. unfold processBatch. cbv zeta.
  destruct (negb (List.length (indexedTxs (classifyLoop OUT i 0 txs emptyClassify)) =? 0)%nat);
  [destruct (p (indexedTxs (classifyLoop OUT i 0 txs emptyClassify)))|];
  destruct (negb (List.length (indexedTxsPending (classifyLoop OUT i 0 txs emptyClassify)) =? 0)%nat);
  try destruct (p (indexedTxsPending (classifyLoop OUT i 0 txs emptyClassify)));
  simpl; rewrite <- ?app_assoc;
  first [exists []; rewrite app_nil_r; reflexivity | eexists; reflexivity].
Qed.

Lemma processBatches_extends (OUT : nat) (fetchTxs : Z -> Z -> list string) (SU : Type)
    (p : list IndexedTx.t -> list DecryptedMemo.t * SU) (a : Z -> SU -> Z) (offsets : list Z) :
  forall s, exists e, events (snd (processBatches OUT fetchTxs SU p a offsets s)) = events s ++ e.
Proof.
  induction offsets as [|i rest IH]; intros s.
  - exists []. rewrite app_nil_r. reflexivity.
  - cbn [processBatches].
    destruct (processBatch OUT SU p a i (fetchTxs i BATCH_SIZE) s) as [r s1] eqn:E1.
    destruct (processBatches OUT fetchTxs SU p a rest s1) as [rs s2] eqn:E2. cbn [snd].
    destruct (processBatch_extends OUT SU p a i (fetchTxs i BATCH_SIZE) s) as [e1 He1].
    rewrite E1 in He1. cbn [snd] in He1.
    destruct (IH s1) as [e2 He2]. rewrite E2 in He2. cbn [snd] in He2.
    exists (e1 ++ e2). rewrite He2, He1, app_assoc. reflexivity.
Qed.

(* Batch offsets and per-batch facts of the sync worker. *)

Definition sync_offsets (OUT : nat) (startIndex nextIndex : Z) : list Z :=
  map (fun j => startIndex + Z.of_nat j * (BATCH_SIZE * OUTPLUSONE OUT))
      (seq 0 (S (Z.to_nat ((nextIndex - startIndex) / (BATCH_SIZE * OUTPLUSONE OUT))))).

Lemma step_pos (OUT : nat) : 0 < BATCH_SIZE * OUTPLUSONE OUT.
Proof. unfold BATCH_SIZE, OUTPLUSONE. lia. Qed.

Lemma batchOffsets_spec (OUT : nat) (nextIndex : Z) (fuel : nat) :
  forall i, i <= nextIndex -> (Z.to_nat (nextIndex - i) < fuel)%nat ->
  batchOffsets OUT fuel i nextIndex = sync_offsets OUT i nextIndex.
Proof.
  pose proof (step_pos OUT) as Hst. set (st := BATCH_SIZE * OUTPLUSONE OUT) in *.
  induction fuel as [|f IH]; intros i Hi Hf; [lia|].
  cbn [batchOffsets]. replace (i <=? nextIndex) with true by (symmetry; apply Z.leb_le; lia).
  fold st. unfold sync_offsets. fold st.
  destruct (Z_le_gt_dec (i + st) nextIndex) as [Hn|Hn].
  - rewrite IH by lia. unfold sync_offsets. fold st.
    assert (Hq : (nextIndex - i) / st = 1 + (nextIndex - (i + st)) / st).
    { replace (nextIndex - i) with (1 * st + (nextIndex - (i + st))) by lia.
      rewrite Z.div_add_l by lia. reflexivity. }
    rewrite Hq. replace (Z.to_nat (1 + (nextIndex - (i + st)) / st))
      with (S (Z.to_nat ((nextIndex - (i + st)) / st)))
      by (pose proof (Z.div_pos (nextIndex - (i + st)) st ltac:(lia) Hst); lia).
    set (m := S (Z.to_nat ((nextIndex - (i + st)) / st))).
    change (seq 0 (S m)) with (0%nat :: seq 1 m).
    rewrite <- (seq_shift m 0). cbn [map]. f_equal; [lia|].
    rewrite map_map. apply map_ext. intros j. lia.
  - assert (Hq : (nextIndex - i) / st = 0) by (apply Z.div_small; lia).
    rewrite Hq. destruct f; cbn [batchOffsets].
    + simpl. f_equal. lia.
    + replace (i + st <=? nextIndex) with false by (symmetry; apply Z.leb_gt; lia).
      simpl. f_equal. lia.
Qed.

Definition no_acc (m : DecryptedMemo.t) : bool :=
  match DecryptedMemo.acc m with None => true | Some _ => false end.

Definition batch_ready (OUT : nat) (SU : Type) (parseTxs : list IndexedTx.t -> list DecryptedMemo.t * SU)
    (i : Z) (txs : list string) : bool :=
  match entries_spec OUT false i 0 txs with
  | [] => true
  | pending => forallb no_acc (fst (parseTxs pending))
  end.

Lemma filter_fetch_map {A : Type} (g : A -> SyncEvent) (l : list A) :
  (forall x, is_fetch (g x) = false) -> filter is_fetch (map g l) = [].
Proof. intros Hg. induction l as [|x l IH]; simpl; [reflexivity|]. rewrite Hg. exact IH. Qed.

Lemma processBatch_facts (OUT : nat) (SU : Type) (parseTxs : list IndexedTx.t -> list DecryptedMemo.t * SU)
    (applyStateUpdate : Z -> SU -> Z) (i : Z) (txs : list string) (s : SyncState) :
  let c := classifyLoop OUT i 0 txs emptyClassify in
  let r := processBatch OUT SU parseTxs applyStateUpdate i txs s in
  filter is_fetch (events (snd r)) = filter is_fetch (events s) /\
  readyToTransact (snd r) = readyToTransact s && batch_ready OUT SU parseTxs i txs /\
  fst r = mkBatchResult (Z.of_nat (List.length txs)) (cMaxMinedIndex c) (cMaxPendingIndex c).
Proof.
  cbv zeta.
  destruct (classifyLoop_spec OUT i txs 0 emptyClassify) as (H1 & H2 & _ & _).
  simpl in H1, H2.
  unfold processBatch, batch_ready. cbv zeta. rewrite H1, H2. destruct s as [n rd ev].
  destruct (entries_spec OUT true i 0 txs) as [|m ms] eqn:Em;
  destruct (entries_spec OUT false i 0 txs) as [|q qs] eqn:Ep; simpl.
  - rewrite andb_true_r. auto.
  - destruct (parseTxs (q :: qs)). simpl.
    rewrite !filter_app, filter_fetch_map by reflexivity. simpl. rewrite !app_nil_r. auto.
  - destruct (parseTxs (m :: ms)). simpl.
    rewrite !filter_app, filter_fetch_map by reflexivity. simpl. rewrite !app_nil_r, andb_true_r. auto.
  - destruct (parseTxs (m :: ms)). destruct (parseTxs (q :: qs)). simpl.
    rewrite !filter_app, !filter_fetch_map by reflexivity. simpl. rewrite !app_nil_r. auto.
Qed.

Lemma processBatches_facts (OUT : nat) (fetchTxs : Z -> Z -> list string) (SU : Type)
    (parseTxs : list IndexedTx.t -> list DecryptedMemo.t * SU) (applyStateUpdate : Z -> SU -> Z)
    (offsets : list Z) :
  forall s,
  let r := processBatches OUT fetchTxs SU parseTxs applyStateUpdate offsets s in
  filter is_fetch (events (snd r)) = filter is_fetch (events s) /\
  readyToTransact (snd r)
  = readyToTransact s && forallb (fun i => batch_ready OUT SU parseTxs i (fetchTxs i BATCH_SIZE)) offsets /\
  fst r = map (fun i => let txs := fetchTxs i BATCH_SIZE in
                        let c := classifyLoop OUT i 0 txs emptyClassify in
                        mkBatchResult (Z.of_nat (List.length txs)) (cMaxMinedIndex c) (cMaxPendingIndex c))
              offsets.
Proof.
  induction offsets as [|i rest IH]; intros s; cbv zeta.
  - simpl. rewrite andb_true_r. auto.
  - cbn [processBatches forallb map].
    destruct (processBatch_facts OUT SU parseTxs applyStateUpdate i (fetchTxs i BATCH_SIZE) s)
      as (F1 & R1 & B1).
    destruct (processBatch OUT SU parseTxs applyStateUpdate i (fetchTxs i BATCH_SIZE) s) as [r1 s1].
    destruct (IH s1) as (F2 & R2 & B2).
    destruct (processBatches OUT fetchTxs SU parseTxs applyStateUpdate rest s1) as [rs s2].
    cbn [fst snd] in *. rewrite F2, F1, R2, R1, B2, B1, andb_assoc. auto.
Qed.

Lemma classifyLoop_max (OUT : nat) (i : Z) (txs : list string) :
  forall k c,
    cMaxMinedIndex (classifyLoop OUT i k txs c)
    = fold_left Z.max (map IndexedTx.index (entries_spec OUT true i k txs)) (cMaxMinedIndex c) /\
    cMaxPendingIndex (classifyLoop OUT i k txs c)
    = fold_left Z.max (map IndexedTx.index (entries_spec OUT false i k txs)) (cMaxPendingIndex c).
Proof.
  induction txs as [|tx rest IH]; intros k c; [split; reflexivity|].
  simpl classifyLoop.
  destruct (IH (S k) (classifyOne OUT i k tx c)) as (H1 & H2).
  rewrite H1, H2. clear H1 H2.
  unfold classifyOne, entries_spec. simpl enum_from.
  rewrite mined_flag_spec. simpl filter.
  destruct (entry_mined_spec tx); simpl; split; reflexivity.
Qed.

Lemma fold_max_shift (l : list Z) : forall x y,
  fold_left Z.max l (Z.max x y) = Z.max x (fold_left Z.max l y).
Proof.
  induction l as [|z l IH]; intros x y; simpl; [reflexivity|].
  rewrite <- Z.max_assoc. apply IH.
Qed.

Lemma fold_max_ge (l : list Z) : forall a, a <= fold_left Z.max l a.
Proof. induction l as [|z l IH]; intros a; simpl; [lia|]. specialize (IH (Z.max a z)). lia. Qed.

Lemma reduce_mined (brf : Z -> BatchResult) (g : Z -> list Z)
    (Hg : forall i, maxMinedIndex (brf i) = fold_left Z.max (g i) (-1)) (offs : list Z) :
  forall acc, -1 <= maxMinedIndex acc ->
  maxMinedIndex (fold_left reduceBatch (map brf offs) acc)
  = fold_left Z.max (flat_map g offs) (maxMinedIndex acc).
Proof.
  induction offs as [|i rest IH]; intros acc Ha; [reflexivity|].
  cbn [map fold_left flat_map]. rewrite fold_left_app.
  rewrite IH; cbn [reduceBatch maxMinedIndex]; rewrite Hg.
  - f_equal. replace (maxMinedIndex acc) with (Z.max (maxMinedIndex acc) (-1)) at 2 by lia.
    symmetry. apply fold_max_shift.
  - lia.
Qed.

Lemma reduce_pending (brf : Z -> BatchResult) (g : Z -> list Z)
    (Hg : forall i, maxPendingIndex (brf i) = fold_left Z.max (g i) (-1)) (offs : list Z) :
  forall acc, -1 <= maxPendingIndex acc ->
  maxPendingIndex (fold_left reduceBatch (map brf offs) acc)
  = fold_left Z.max (flat_map g offs) (maxPendingIndex acc).
Proof.
  induction offs as [|i rest IH]; intros acc Ha; [reflexivity|].
  cbn [map fold_left flat_map]. rewrite fold_left_app.
  rewrite IH; cbn [reduceBatch maxPendingIndex]; rewrite Hg.
  - f_equal. replace (maxPendingIndex acc) with (Z.max (maxPendingIndex acc) (-1)) at 2 by lia.
    symmetry. apply fold_max_shift.
  - lia.
Qed.

Lemma filter_fetch_fetches (l : list Z) :
  filter is_fetch (map (fun i => FetchTransactionsOptimistic i BATCH_SIZE) l)
  = map (fun i => FetchTransactionsOptimistic i BATCH_SIZE) l.
Proof. induction l as [|i l IH]; simpl; [reflexivity|]. rewrite IH. reflexivity. Qed.

Lemma worker_fetch_path (OUT : nat) (deltaIndex : Z) (fetchTxs : Z -> Z -> list string) (SU : Type)
    (parseTxs : list IndexedTx.t -> list DecryptedMemo.t * SU) (applyStateUpdate : Z -> SU -> Z)
    (s : SyncState) (H : nextTreeIndex s <= deltaIndex) :
  let offs := sync_offsets OUT (nextTreeIndex s) deltaIndex in
  let s1 := emit (map (fun i => FetchTransactionsOptimistic i BATCH_SIZE) offs)
              (mkSyncState (nextTreeIndex s) true (events s ++ [Info])) in
  let r := processBatches OUT fetchTxs SU parseTxs applyStateUpdate offs s1 in
  let totalRes := fold_left reduceBatch (fst r) (mkBatchResult 0 (-1) (-1)) in
  let s2 := emit [SetLastMinedTxIndex (maxMinedIndex totalRes);
                  SetLastPendingTxIndex (maxPendingIndex totalRes)] (snd r) in
  updateStateOptimisticWorker OUT deltaIndex fetchTxs SU parseTxs applyStateUpdate s
  = (readyToTransact s2, s2).
Proof.
  cbv zeta. unfold updateStateOptimisticWorker. cbv zeta.
  replace (deltaIndex + 1 >? nextTreeIndex s) with true
    by (symmetry; rewrite Z.gtb_ltb; apply Z.ltb_lt; lia).
  rewrite batchOffsets_spec by lia.
  change (events (emit [Info] s)) with (events s ++ [Info]).
  change (nextTreeIndex (emit [Info] s)) with (nextTreeIndex s).
  destruct (processBatches OUT fetchTxs SU parseTxs applyStateUpdate
     (sync_offsets OUT (nextTreeIndex s) deltaIndex)
     (emit (map (fun i => FetchTransactionsOptimistic i BATCH_SIZE)
        (sync_offsets OUT (nextTreeIndex s) deltaIndex))
        (mkSyncState (nextTreeIndex s) true (events s ++ [Info])))).
  reflexivity.
Qed.


(** The fetches a cycle issues, when the local index is not ahead of the
    relayer: one per batch offset, in order, and nothing else. *)
Lemma worker_fetch_events (OUT : nat) (deltaIndex : Z) (fetchTxs : Z -> Z -> list string) (SU : Type)
    (parseTxs : list IndexedTx.t -> list DecryptedMemo.t * SU) (applyStateUpdate : Z -> SU -> Z)
    (s : SyncState) (H : nextTreeIndex s <= deltaIndex) :
  filter is_fetch (events (snd (updateStateOptimisticWorker OUT deltaIndex fetchTxs SU parseTxs
                                  applyStateUpdate s)))
  = filter is_fetch (events s)
    ++ map (fun i => FetchTransactionsOptimistic i BATCH_SIZE) (sync_offsets OUT (nextTreeIndex s) deltaIndex).
Proof.
  rewrite (worker_fetch_path OUT deltaIndex fetchTxs SU parseTxs applyStateUpdate s H). cbv zeta.
  cbn [snd]. unfold emit at 1. cbn [events].
  destruct (processBatches_facts OUT fetchTxs SU parseTxs applyStateUpdate
              (sync_offsets OUT (nextTreeIndex s) deltaIndex)
              (emit (map (fun i => FetchTransactionsOptimistic i BATCH_SIZE)
                 (sync_offsets OUT (nextTreeIndex s) deltaIndex))
                 (mkSyncState (nextTreeIndex s) true (events s ++ [Info])))) as (F & _ & _).
  cbv zeta in F. rewrite filter_app, F. cbn [events emit]. rewrite !filter_app.
  rewrite filter_fetch_fetches. simpl. rewrite !app_nil_r. reflexivity.
Qed.

(** The first batch offset is the local index itself. *)
Lemma sync_offsets_head (OUT : nat) (startIndex nextIndex : Z) :
  exists rest, sync_offsets OUT startIndex nextIndex = startIndex :: rest.
Proof.
  unfold sync_offsets. cbn [seq map]. rewrite Z.mul_0_l, Z.add_0_r. eexists; reflexivity.
Qed.

(** C2 (as the code does it): [updateState] returns [true] with no batch
    fetch exactly when the local [nextTreeIndex] exceeds the relayer's
    [deltaIndex]; when [nextTreeIndex <= deltaIndex], also when both are
    equal and nothing is new, it still issues at least one batch fetch, and
    the first batch it fetches starts at [nextTreeIndex]. *)
Theorem updateStateOptimisticWorker_no_fetch_iff (OUT : nat) (deltaIndex : Z)
    (fetchTxs : Z -> Z -> list string) (SU : Type)
    (parseTxs : list IndexedTx.t -> list DecryptedMemo.t * SU)
    (applyStateUpdate : Z -> SU -> Z) (s : SyncState) :
  (deltaIndex < nextTreeIndex s ->
   updateStateOptimisticWorker OUT deltaIndex fetchTxs SU parseTxs applyStateUpdate s
   = (true, emit [Info] s)) /\
  (nextTreeIndex s <= deltaIndex ->
   (S (fetchCount (events s)) <=
    fetchCount (events (snd (updateStateOptimisticWorker OUT deltaIndex fetchTxs SU
                               parseTxs applyStateUpdate s))))%nat /\
   exists rest,
     filter is_fetch (events (snd (updateStateOptimisticWorker OUT deltaIndex fetchTxs SU
                                     parseTxs applyStateUpdate s)))
     = filter is_fetch (events s) ++ FetchTransactionsOptimistic (nextTreeIndex s) BATCH_SIZE :: rest).
Proof.
  split; intros H.
  - unfold updateStateOptimisticWorker; cbv zeta.
    replace (deltaIndex + 1 >? nextTreeIndex s) with false
      by (symmetry; rewrite Z.gtb_ltb; apply Z.ltb_ge; lia).
    reflexivity.
  - rewrite (worker_fetch_events OUT deltaIndex fetchTxs SU parseTxs applyStateUpdate s H).
    destruct (sync_offsets_head OUT (nextTreeIndex s) deltaIndex) as [rest ->].
    split.
    + unfold fetchCount.
      rewrite (worker_fetch_events OUT deltaIndex fetchTxs SU parseTxs applyStateUpdate s H).
      destruct (sync_offsets_head OUT (nextTreeIndex s) deltaIndex) as [rest' ->].
      rewrite length_app. simpl. lia.
    + exists (map (fun i => FetchTransactionsOptimistic i BATCH_SIZE) rest). reflexivity.
Qed.

(** A relayer with no entries and a crypto worker that decrypts nothing. *)
Definition no_entries (_ _ : Z) : list string := [].
Definition parse_nothing (_ : list IndexedTx.t) : list DecryptedMemo.t * unit := ([], tt).
Definition apply_nothing (n : Z) (_ : unit) : Z := n.

Lemma updateStateOptimisticWorker_no_fetch_iff_witness :
  0 < 128 /\
  updateStateOptimisticWorker 127 0 no_entries unit parse_nothing apply_nothing
    (mkSyncState 128 true [])
  = (true, emit [Info] (mkSyncState 128 true [])).
Proof.
  split; [lia|].
  apply (proj1 (updateStateOptimisticWorker_no_fetch_iff 127 0 no_entries unit parse_nothing
                  apply_nothing (mkSyncState 128 true []))).
  simpl. lia.
Defined.

(** C2 fails as stated: with [nextTreeIndex = deltaIndex = 0] and no
    entries on the relayer, the first cycle leaves [nextTreeIndex] at the
    delta index, and the second cycle returns [true] but still fetches one
    batch. *)
Lemma updateState_second_call_fetches :
  let w := updateStateOptimisticWorker 127 0 no_entries unit parse_nothing apply_nothing in
  let '(r1, s1) := w (mkSyncState 0 true []) in
  let '(r2, s2) := w s1 in
  nextTreeIndex s1 = 0 /\ r2 = true /\
  fetchCount (events s2) = S (fetchCount (events s1)).
Proof. vm_compute. repeat split; reflexivity. Qed.

(* ------------------------------------------------------------------ *)
(** ** The single-flight guard of [updateState] (client.ts, lines 124, 764-774) *)

Module SingleFlight.

(** How the promise of one sync cycle settles. *)
Inductive Outcome :=
| Resolved (readyToTransact : bool)
| Rejected.

(** The client's guard [updateStatePromise] holds the in-flight cycle (by
    its number); [cycles] lists every cycle started (one call of
    [updateStateOptimisticWorker], i.e. one fetch sequence), with the asset
    it was started for and its outcome once settled. *)
Record Client := mkClient {
  updateStatePromise : option nat;
  cycles : list (string * option Outcome)
}.

Definition initClient : Client := mkClient None [].

(** [updateState(tokenAddress)]: start a cycle when the guard is empty,
    otherwise hand out the in-flight promise. *)
Definition updateState (tokenAddress : string) (c : Client) : nat * Client :=
  match updateStatePromise c with
  | None =>
      let id := List.length (cycles c) in
      (id, mkClient (Some id) (cycles c ++ [(tokenAddress, None)]))
  | Some id => (id, c)
  end.

Fixpoint set_outcome (k : nat) (o : Outcome) (l : list (string * option Outcome))
    : list (string * option Outcome) :=
  match l, k with
  | [], _ => []
  | (a, _) :: l', O => (a, Some o) :: l'
  | x :: l', S k' => x :: set_outcome k' o l'
  end.

(** The in-flight worker promise settles (resolves or rejects); the
    [.finally] callback then clears the guard. *)
Definition settle (o : Outcome) (c : Client) : Client :=
  match updateStatePromise c with
  | None => c
  | Some id => mkClient None (set_outcome id o (cycles c))
  end.

(** The event loop: callers of [updateState] and settlements of the
    in-flight cycle, interleaved. *)
Inductive Action :=
| Call (tokenAddress : string)
| Settle (o : Outcome).

(** Runs the actions; returns the promise each call received. *)
Fixpoint run (acts : list Action) (c : Client) : list nat * Client :=
  match acts with
  | [] => ([], c)
  | Call a :: rest =>
      let '(id, c) := updateState a c in
      let '(ids, c) := run rest c in (id :: ids, c)
  | Settle o :: rest => run rest (settle o c)
  end.

Definition is_call (a : Action) : bool :=
  match a with Call _ => true | Settle _ => false end.

(** What a caller holding promise [id] observes. *)
Definition resolution (c : Client) (id : nat) : option Outcome :=
  match nth_error (cycles c) id with
  | Some (_, o) => o
  | None => None
  end.

(** The guard names exactly the unsettled cycle. *)
Definition Inv (c : Client) : Prop :=
  (forall k a o, nth_error (cycles c) k = Some (a, o) ->
     (o = None <-> updateStatePromise c = Some k)) /\
  (forall k, updateStatePromise c = Some k -> (k < List.length (cycles c))%nat).

Definition reachable (c : Client) : Prop := exists acts, c = snd (run acts initClient).

End SingleFlight.

(* ------------------------------------------------------------------ *)
(** ** Single-flight lemmas *)

Section SingleFlightProofs.
Import SingleFlight.

Lemma nth_error_set_outcome (l : list (string * option Outcome)) :
  forall id o k, nth_error (set_outcome id o l) k =
    if Nat.eqb k id then option_map (fun '(a, _) => (a, Some o)) (nth_error l k)
    else nth_error l k.
Proof.
  induction l as [|[a x] l IH]; intros id o k.
  - destruct id, k; simpl; try destruct (k =? id)%nat; reflexivity.
  - destruct id as [|id], k as [|k]; simpl; try reflexivity; try apply IH.
    all: destruct k; reflexivity.
Qed.

Lemma length_set_outcome (l : list (string * option Outcome)) :
  forall id o, List.length (set_outcome id o l) = List.length l.
Proof.
  induction l as [|[a x] l IH]; intros id o; [destruct id; reflexivity|].
  destruct id; simpl; [reflexivity | rewrite IH; reflexivity].
Qed.

Lemma Inv_init : Inv initClient.
Proof.
  split; [intros k a o H; destruct k; discriminate | intros k H; discriminate].
Qed.

Lemma Inv_updateState (a : string) (c : Client) : Inv c -> Inv (snd (updateState a c)).
Proof.
  intros [H1 H2]. unfold updateState.
  destruct (updateStatePromise c) as [id|] eqn:Hp; [simpl; unfold Inv; rewrite Hp; exact (conj H1 H2)|]. simpl.
  split.
  - intros k a' o Hk.
    destruct (Nat.lt_ge_cases k (List.length (cycles c))) as [Hlt|Hge]; cbn [cycles updateStatePromise] in *.
    + rewrite nth_error_app1 in Hk by exact Hlt.
      specialize (H1 k a' o Hk).
      split; intros E; [apply H1 in E; discriminate|].
      injection E as E. lia.
    + rewrite nth_error_app2 in Hk by exact Hge.
      destruct (k - List.length (cycles c))%nat as [|j] eqn:Ej.
      * simpl in Hk. injection Hk as <- <-.
        replace k with (List.length (cycles c)) by lia. tauto.
      * simpl in Hk. destruct j; discriminate.
  - intros k Hk. cbn [cycles updateStatePromise] in *. injection Hk as <-. rewrite length_app. simpl. lia.
Qed.

Lemma Inv_settle (o : Outcome) (c : Client) : Inv c -> Inv (settle o c).
Proof.
  intros [H1 H2]. unfold settle.
  destruct (updateStatePromise c) as [id|] eqn:Hp; [|unfold Inv; rewrite Hp; exact (conj H1 H2)]. simpl.
  split; [|intros k Hk; discriminate].
  intros k a' o' Hk. cbn [cycles updateStatePromise] in *. rewrite nth_error_set_outcome in Hk.
  destruct (Nat.eqb k id) eqn:Ek.
  - destruct (nth_error (cycles c) k) as [[a0 x]|]; simpl in Hk; [|discriminate].
    injection Hk as _ <-. split; discriminate.
  - specialize (H1 k a' o' Hk).
    apply Nat.eqb_neq in Ek.
    split; intros E; [apply H1 in E; injection E as E; lia | discriminate].
Qed.

Lemma Inv_run (acts : list Action) : forall c, Inv c -> Inv (snd (run acts c)).
Proof.
  induction acts as [|[a|o] rest IH]; intros c Hc; simpl; [exact Hc| |].
  - destruct (updateState a c) as [id c1] eqn:E1.
    pose proof (Inv_updateState a c Hc) as H1. rewrite E1 in H1. simpl in H1.
    destruct (run rest c1) as [ids c2] eqn:E2. simpl.
    specialize (IH c1 H1). rewrite E2 in IH. exact IH.
  - apply IH, Inv_settle, Hc.
Qed.

Lemma reachable_Inv (c : Client) : reachable c -> Inv c.
Proof. intros [acts ->]. apply Inv_run, Inv_init. Qed.

Lemma run_calls_joined (acts : list Action) :
  forall c id, updateStatePromise c = Some id -> forallb is_call acts = true ->
  run acts c = (repeat id (List.length acts), c).
Proof.
  induction acts as [|[a|o] rest IH]; intros c id Hp Hc; simpl in *; [reflexivity| |discriminate].
  unfold updateState. rewrite Hp. rewrite (IH c id Hp Hc). reflexivity.
Qed.

Lemma updateState_sets_guard (a : string) (c : Client) :
  updateStatePromise (snd (updateState a c)) = Some (fst (updateState a c)).
Proof. unfold updateState. destruct (updateStatePromise c) eqn:Hp; [exact Hp | reflexivity]. Qed.

End SingleFlightProofs.

Lemma last_repeat_cons (id n : nat) : last (id :: repeat id n) 0%nat = id.
Proof. induction n as [|n IH]; [reflexivity|]. simpl in *. destruct n; [reflexivity|exact IH]. Qed.

(** C3: at most one cycle is in flight per client (so per client and
    asset); calls that overlap (no settlement between them) all get the
    same promise, start at most one fetch sequence between them (exactly
    one when the guard was free) and observe the same outcome; whether the
    cycle resolves or rejects, the guard is cleared and the next call
    starts a fresh cycle. *)
Theorem updateState_single_flight :
  (forall c, SingleFlight.reachable c -> forall k1 k2 a1 a2,
     nth_error (SingleFlight.cycles c) k1 = Some (a1, None) ->
     nth_error (SingleFlight.cycles c) k2 = Some (a2, None) -> k1 = k2) /\
  (forall c a1 a2 mid, forallb SingleFlight.is_call mid = true ->
     let '(ids, c') :=
       SingleFlight.run (SingleFlight.Call a1 :: mid ++ [SingleFlight.Call a2]) c in
     Forall (fun id => id = hd 0%nat ids) ids /\
     List.length (SingleFlight.cycles c')
       = (List.length (SingleFlight.cycles c)
          + match SingleFlight.updateStatePromise c with None => 1 | Some _ => 0 end)%nat /\
     (forall later,
        SingleFlight.resolution (snd (SingleFlight.run later c')) (hd 0%nat ids)
        = SingleFlight.resolution (snd (SingleFlight.run later c')) (last ids 0%nat))) /\
  (forall c o a,
     SingleFlight.updateStatePromise (SingleFlight.settle o c) = None /\
     SingleFlight.updateState a (SingleFlight.settle o c)
     = (List.length (SingleFlight.cycles c),
        SingleFlight.mkClient (Some (List.length (SingleFlight.cycles c)))
          (SingleFlight.cycles (SingleFlight.settle o c) ++ [(a, None)]))).
Proof.
  split; [|split].
  - intros c Hr k1 k2 a1 a2 H1 H2.
    destruct (reachable_Inv c Hr) as [Hi _].
    apply (Hi k1 a1 None) in H1. apply (Hi k2 a2 None) in H2.
    destruct H1 as [H1 _]. destruct H2 as [H2 _].
    rewrite (H1 eq_refl) in H2. specialize (H2 eq_refl). congruence.
  - intros c a1 a2 mid Hmid. cbn [SingleFlight.run].
    destruct (SingleFlight.updateState a1 c) as [id c1] eqn:E1.
    pose proof (updateState_sets_guard a1 c) as Hg. rewrite E1 in Hg. simpl in Hg.
    assert (Hc : forallb SingleFlight.is_call (mid ++ [SingleFlight.Call a2]) = true)
      by (rewrite forallb_app, Hmid; reflexivity).
    rewrite (run_calls_joined _ c1 id Hg Hc). cbn [hd].
    split; [|split].
    + constructor; [reflexivity|]. apply Forall_forall. intros x Hx.
      apply repeat_spec in Hx. exact Hx.
    + unfold SingleFlight.updateState in E1.
      destruct (SingleFlight.updateStatePromise c); injection E1 as <- <-; simpl;
        [lia | rewrite length_app; simpl; lia].
    + intros later. rewrite last_repeat_cons. reflexivity.
  - intros c o a. unfold SingleFlight.settle.
    destruct (SingleFlight.updateStatePromise c) as [id|] eqn:Hp; simpl.
    + split; [reflexivity|]. unfold SingleFlight.updateState. simpl.
      rewrite length_set_outcome. reflexivity.
    + split; [exact Hp|]. unfold SingleFlight.updateState. rewrite Hp. reflexivity.
Qed.

Lemma updateState_single_flight_witness :
  SingleFlight.reachable
    (snd (SingleFlight.run [SingleFlight.Call "pool"%string; SingleFlight.Call "other"%string]
            SingleFlight.initClient)) /\
  (0 = 0)%nat.
Proof.
  split; [eexists; reflexivity|].
  apply (proj1 updateState_single_flight
           (snd (SingleFlight.run [SingleFlight.Call "pool"%string; SingleFlight.Call "other"%string]
                   SingleFlight.initClient))
           ltac:(eexists; reflexivity) 0%nat 0%nat "pool"%string "pool"%string); reflexivity.
Defined.

(* ------------------------------------------------------------------ *)
(** ** Transaction-sending operations (client.ts, lines 284-574) *)

Module Send.

Inductive TxType := Deposit | Transfer | Withdraw | BridgeDeposit.

(** The effects of one attempt, in order. *)
Inductive TxEvent :=
| UpdateState
| ProveTx
| VerifyProof (valid : bool)
| SignData
| SendTransactions (count : nat).

(** An attempt either throws an [Error] (its message) or returns; the
    effects issued before the throw stay in the log. *)
Definition M (A : Type) : Type := ((string + A) * list TxEvent)%type.

Definition ret {A : Type} (a : A) : M A := (inr a, []).
Definition throw {A : Type} (msg : string) : M A := (inl msg, []).
Definition emit (e : TxEvent) : M unit := (inr tt, [e]).

Definition bind {A B : Type} (m : M A) (k : A -> M B) : M B :=
  match m with
  | (inl e, t) => (inl e, t)
  | (inr a, t) => let '(r, t') := k a in (r, t ++ t')
  end.

Notation "x <- m ;; k" := (bind m (fun x => k)) (at level 61, m at next level, right associativity).
Notation "m ;;; k" := (bind m (fun _ => k)) (at level 61, right associativity).

Fixpoint mapM {A B : Type} (f : A -> M B) (l : list A) : M (list B) :=
  match l with
  | [] => ret []
  | x :: l' => y <- f x ;; ys <- mapM f l' ;; ret (y :: ys)
  end.

Section Ops.

Variable IN : nat.
(** The wasm account: the unsigned transaction data it builds. *)
Variable TxData : Type.
Variable txMemo : TxData -> string.
Variable createDeposit : Z -> Z -> TxData.
Variable createDepositPermittable : Z -> Z -> Z -> string -> TxData.
Variable createTransfer : list (string * Z) -> Z -> TxData.
Variable createWithdraw : Z -> string -> Z -> TxData.
Variable createMultiTransfer : list (list (string * Z) * Z) -> list TxData.
Variable createMultiWithdraw : list (Z * Z * string) -> list TxData.
Variable nullifierHex : TxData -> string.
(** The prover ([worker.proveTx]) and [Proof.verify] under [transferVk]. *)
Variable Proof : Type.
Variable proveTx : TxData -> Proof.
Variable verify : Proof -> bool.
(** [validateAddress], the signing callbacks, the deadline clock and the
    relayer's job id. *)
Variable validateAddress : string -> bool.
Variable sign : string -> string.
Variable signTypedData : Z -> Z -> string.
Variable deadline : Z.
Variable jobIdOf : list (TxType * string * Proof * option string) -> string.
(** The token's state after [updateState]. *)
Variable state : ZkBobState.
Variable denominator : Z.

Definition TxToRelayer : Type := (TxType * string * Proof * option string)%type.

Definition updateState : M unit := emit UpdateState.

Definition sendTransactions (txs : list TxToRelayer) : M string :=
  emit (SendTransactions (List.length txs)) ;;; ret (jobIdOf txs).

(** The block shared by all senders: prove, verify, throw on failure. *)
Definition proveChecked (d : TxData) : M Proof :=
  emit ProveTx ;;;
  let txProof := proveTx d in
  let txValid := verify txProof in
  emit (VerifyProof txValid) ;;;
  if negb txValid then throw "invalid tx proof" else ret txProof.

Definition tooSmall (amountGwei : Z) : bool := amountGwei <? MIN_TX_AMOUNT.

(** [depositPermittable] (lines 284-335). *)
Definition depositPermittable (amountGwei : Z) (fromAddress : option string) (feeGwei : Z)
    : M string :=
  if tooSmall amountGwei then throw "Deposit is too small" else
  updateState ;;;
  match fromAddress with
  | Some holder =>
      let txData := createDepositPermittable (amountGwei + feeGwei) feeGwei deadline holder in
      txProof <- proveChecked txData ;;
      let value := (amountGwei + feeGwei) * denominator in
      emit SignData ;;;
      let signature := signTypedData deadline value in
      sendTransactions [(BridgeDeposit, txMemo txData, txProof, Some signature)]
  | None => throw "You must provide fromAddress for bridge deposit transaction "
  end.

(** [transferMulti] (lines 340-388). *)
Definition transferMulti (to : string) (amountGwei feeGwei : Z) : M string :=
  if negb (validateAddress to) then throw "Invalid address. Expected a shielded address." else
  if tooSmall amountGwei then throw "Transfer amount is too small" else
  let txParts := getTransactionParts IN state amountGwei feeGwei in
  if (List.length txParts =? 0)%nat
  then throw "Cannot find appropriate multitransfer configuration (insufficient funds?)" else
  let transfers := map (fun p => ([(to, amount p)], fee p)) txParts in
  let txsData := createMultiTransfer transfers in
  txs <- mapM (fun transfer =>
                 txProof <- proveChecked transfer ;;
                 ret (Transfer, txMemo transfer, txProof, @None string)) txsData ;;
  sendTransactions txs.

(** [withdrawMulti] (lines 394-443). *)
Definition withdrawMulti (address : string) (amountGwei feeGwei : Z) : M string :=
  if tooSmall amountGwei then throw "Withdraw amount is too small" else
  let txParts := getTransactionParts IN state amountGwei feeGwei in
  if (List.length txParts =? 0)%nat
  then throw "Cannot find appropriate multitransfer configuration (insufficient funds?)" else
  let transfers := map (fun p => (amount p, fee p, address)) txParts in
  let txsData := createMultiWithdraw transfers in
  txs <- mapM (fun transfer =>
                 txProof <- proveChecked transfer ;;
                 ret (Withdraw, txMemo transfer, txProof, @None string)) txsData ;;
  sendTransactions txs.

(** [deposit] (lines 450-499). *)
Definition deposit (amountGwei : Z) (fromAddress : option string) (feeGwei : Z) : M string :=
  if tooSmall amountGwei then throw "Deposit is too small" else
  updateState ;;;
  let txData := createDeposit (amountGwei + feeGwei) feeGwei in
  txProof <- proveChecked txData ;;
  emit SignData ;;;
  let signature := sign (nullifierHex txData) in
  let fullSignature :=
    match fromAddress with Some addr => (addr ++ signature)%string | None => signature end in
  sendTransactions [(Deposit, txMemo txData, txProof, Some fullSignature)].

(** [transferSingle] (lines 504-536). *)
Definition transferSingle (outsGwei : list (string * Z)) (feeGwei : Z) : M string :=
  updateState ;;;
  outGwei <- mapM (fun '(to, amount) =>
                     if negb (validateAddress to)
                     then throw "Invalid address. Expected a shielded address."
                     else if tooSmall amount then throw "One of the values is too small"
                     else ret (to, amount)) outsGwei ;;
  let txData := createTransfer outGwei feeGwei in
  txProof <- proveChecked txData ;;
  sendTransactions [(Transfer, txMemo txData, txProof, None)].

(** [withdrawSingle] (lines 541-574). *)
Definition withdrawSingle (address : string) (amountGwei feeGwei : Z) : M string :=
  if tooSmall amountGwei then throw "Withdraw amount is too small" else
  updateState ;;;
  let txData := createWithdraw (amountGwei + feeGwei) address feeGwei in
  txProof <- proveChecked txData ;;
  sendTransactions [(Withdraw, txMemo txData, txProof, None)].

End Ops.

Definition is_send (e : TxEvent) : bool :=
  match e with SendTransactions _ => true | _ => false end.

(** An attempt in which a proof failed verification: it threw, and sent
    nothing. *)
Definition aborted_unsent {A : Type} (m : M A) : Prop :=
  In (VerifyProof false) (snd m) ->
  (exists e, fst m = inl e) /\ forallb (fun e => negb (is_send e)) (snd m) = true.

End Send.

(* ------------------------------------------------------------------ *)
(** ** A failed verification aborts the attempt before any send *)

Section SendProofs.
Import Send.

Definition no_send (t : list TxEvent) : bool := forallb (fun e => negb (is_send e)) t.

(** A successful run has only valid proofs in its log; a log with a
    rejected proof has no send. *)
Definition Good {A : Type} (m : M A) : Prop :=
  (forall a, fst m = inr a -> ~ In (VerifyProof false) (snd m)) /\
  (In (VerifyProof false) (snd m) -> no_send (snd m) = true).

Definition SendFree {A : Type} (m : M A) : Prop := no_send (snd m) = true.

Lemma no_send_app (t1 t2 : list TxEvent) : no_send (t1 ++ t2) = no_send t1 && no_send t2.
Proof. apply forallb_app. Qed.

Lemma good_ret {A : Type} (a : A) : Good (ret a).
Proof. split; simpl; tauto. Qed.

Lemma good_throw {A : Type} (msg : string) : Good (A := A) (throw msg).
Proof. split; simpl; [intros a H; discriminate | tauto]. Qed.

Lemma good_emit (e : TxEvent) : e <> VerifyProof false -> Good (emit e).
Proof.
  intros He. split; simpl.
  - intros _ _ [H|H]; [congruence | exact H].
  - intros [H|H]; [congruence | destruct H].
Qed.

Lemma sendfree_ret {A : Type} (a : A) : SendFree (ret a).
Proof. reflexivity. Qed.

Lemma sendfree_throw {A : Type} (msg : string) : SendFree (A := A) (throw msg).
Proof. reflexivity. Qed.

Lemma sendfree_emit (e : TxEvent) : is_send e = false -> SendFree (emit e).
Proof. intros H. unfold SendFree, no_send; simpl. rewrite H. reflexivity. Qed.

Lemma good_bind {A B : Type} (m : M A) (k : A -> M B) :
  Good m -> SendFree m -> (forall a, Good (k a)) -> Good (bind m k).
Proof.
  intros [G1 G2] Sm Gk. unfold bind.
  destruct m as [[e|a] t] eqn:Em; [split; simpl in *; [intros ? H; discriminate | exact G2]|].
  specialize (G1 a eq_refl). cbn [fst snd] in G1, Sm.
  destruct (k a) as [r t'] eqn:Ek. destruct (Gk a) as [K1 K2]. rewrite Ek in K1, K2.
  cbn [fst snd] in *. split.
  - intros b Hb Hin. apply in_app_or in Hin as [Hin|Hin]; [exact (G1 Hin)|].
    exact (K1 b Hb Hin).
  - intros Hin. apply in_app_or in Hin as [Hin|Hin]; [contradiction|].
    unfold SendFree in Sm. cbn [snd] in *. rewrite no_send_app, Sm, (K2 Hin). reflexivity.
Qed.

Lemma sendfree_bind {A B : Type} (m : M A) (k : A -> M B) :
  SendFree m -> (forall a, SendFree (k a)) -> SendFree (bind m k).
Proof.
  intros Sm Sk. unfold bind, SendFree in *.
  destruct m as [[e|a] t]; [exact Sm|].
  specialize (Sk a). destruct (k a) as [r t']. simpl in *.
  rewrite no_send_app, Sm, Sk. reflexivity.
Qed.

Ltac good_step :=
  match goal with
  | |- Good (bind _ _) => apply good_bind; [ | | intros ? ]
  | |- SendFree (bind _ _) => apply sendfree_bind; [ | intros ? ]
  | |- Good (ret _) => apply good_ret
  | |- SendFree (ret _) => apply sendfree_ret
  | |- Good (throw _) => apply good_throw
  | |- SendFree (throw _) => apply sendfree_throw
  | |- Good (emit _) => apply good_emit; discriminate
  | |- SendFree (emit _) => apply sendfree_emit; reflexivity
  | |- Good (if ?b then _ else _) => destruct b
  | |- SendFree (if ?b then _ else _) => destruct b
  | |- Good (match ?x with _ => _ end) => destruct x
  | |- SendFree (match ?x with _ => _ end) => destruct x
  end.

Lemma proveChecked_good (TxData Proof : Type) (proveTx : TxData -> Proof)
    (verify : Proof -> bool) (d : TxData) :
  Good (proveChecked TxData Proof proveTx verify d) /\
  SendFree (proveChecked TxData Proof proveTx verify d).
Proof.
  unfold proveChecked, SendFree, Good, no_send; simpl.
  destruct (verify (proveTx d)); simpl.
  - split; [split|reflexivity].
    + intros _ _ [H|[H|H]]; [discriminate|discriminate|exact H].
    + intros [H|[H|H]]; [discriminate|discriminate|destruct H].
  - split; [split|reflexivity].
    + intros a Ha. discriminate.
    + intros _. reflexivity.
Qed.

Lemma mapM_good {A B : Type} (f : A -> M B) (l : list A) :
  (forall x, Good (f x) /\ SendFree (f x)) -> Good (mapM f l) /\ SendFree (mapM f l).
Proof.
  intros Hf. induction l as [|x l IH]; simpl.
  - split; [apply good_ret | apply sendfree_ret].
  - destruct (Hf x) as [G S]. destruct IH as [IG IS].
    split; repeat good_step; try assumption.
    all: first [apply good_ret | apply sendfree_ret | apply sendfree_bind; [assumption | intros; apply sendfree_ret]].
Qed.

Lemma mapM_Good {A B : Type} (f : A -> M B) (l : list A) :
  (forall x, Good (f x) /\ SendFree (f x)) -> Good (mapM f l).
Proof. intros Hf. exact (proj1 (mapM_good f l Hf)). Qed.

Lemma mapM_SendFree {A B : Type} (f : A -> M B) (l : list A) :
  (forall x, Good (f x) /\ SendFree (f x)) -> SendFree (mapM f l).
Proof. intros Hf. exact (proj2 (mapM_good f l Hf)). Qed.

Lemma good_aborted_unsent {A : Type} (m : M A) : Good m -> aborted_unsent m.
Proof.
  intros [G1 G2] Hin. split; [|exact (G2 Hin)].
  destruct (fst m) as [e|a] eqn:E; [exists e; reflexivity|].
  exfalso. exact (G1 a eq_refl Hin).
Qed.

Lemma sendTransactions_good (P : Type) (jobIdOf : list (TxType * string * P * option string) -> string)
    (txs : list (TxType * string * P * option string)) :
  Good (sendTransactions P jobIdOf txs).
Proof.
  unfold sendTransactions, Good; simpl. split.
  - intros _ _ [H|H]; [discriminate | exact H].
  - intros [H|H]; [discriminate | destruct H].
Qed.


Variable IN : nat.
Variable TxData : Type.
Variable txMemo : TxData -> string.
Variable createDeposit : Z -> Z -> TxData.
Variable createDepositPermittable : Z -> Z -> Z -> string -> TxData.
Variable createTransfer : list (string * Z) -> Z -> TxData.
Variable createWithdraw : Z -> string -> Z -> TxData.
Variable createMultiTransfer : list (list (string * Z) * Z) -> list TxData.
Variable createMultiWithdraw : list (Z * Z * string) -> list TxData.
Variable nullifierHex : TxData -> string.
Variable Proof : Type.
Variable proveTx : TxData -> Proof.
Variable verify : Proof -> bool.
Variable validateAddress : string -> bool.
Variable sign : string -> string.
Variable signTypedData : Z -> Z -> string.
Variable deadline : Z.
Variable jobIdOf : list (TxType * string * Proof * option string) -> string.
Variable state : ZkBobState.
Variable denominator : Z.

Lemma proveChecked_Good (d : TxData) : Good (proveChecked TxData Proof proveTx verify d).
Proof. exact (proj1 (proveChecked_good TxData Proof proveTx verify d)). Qed.

Lemma proveChecked_SendFree (d : TxData) : SendFree (proveChecked TxData Proof proveTx verify d).
Proof. exact (proj2 (proveChecked_good TxData Proof proveTx verify d)). Qed.

Ltac send_good :=
  repeat match goal with
    | |- Good (proveChecked _ _ _ _ _) => apply proveChecked_Good
    | |- SendFree (proveChecked _ _ _ _ _) => apply proveChecked_SendFree
    | |- Good (sendTransactions _ _ _) => apply sendTransactions_good
    | |- Good (mapM _ _) => apply mapM_Good; intros ?
    | |- SendFree (mapM _ _) => apply mapM_SendFree; intros ?
    | |- Good _ /\ SendFree _ => split
    | |- _ => good_step
    end.

Lemma transferMulti_good (to : string) (amountGwei feeGwei : Z) :
  Good (transferMulti IN TxData txMemo createMultiTransfer Proof proveTx verify
          validateAddress jobIdOf state to amountGwei feeGwei).
Proof. unfold transferMulti. cbv zeta. send_good. Qed.

Lemma withdrawMulti_good (address : string) (amountGwei feeGwei : Z) :
  Good (withdrawMulti IN TxData txMemo createMultiWithdraw Proof proveTx verify
          jobIdOf state address amountGwei feeGwei).
Proof. unfold withdrawMulti. cbv zeta. send_good. Qed.

Lemma deposit_good (amountGwei : Z) (fromAddress : option string) (feeGwei : Z) :
  Good (deposit TxData txMemo createDeposit nullifierHex Proof proveTx verify sign
          jobIdOf amountGwei fromAddress feeGwei).
Proof. unfold deposit, Send.updateState. cbv zeta. send_good. Qed.

Lemma depositPermittable_good (amountGwei : Z) (fromAddress : option string) (feeGwei : Z) :
  Good (depositPermittable TxData txMemo createDepositPermittable Proof proveTx verify
          signTypedData deadline jobIdOf denominator amountGwei fromAddress feeGwei).
Proof. unfold depositPermittable, Send.updateState. cbv zeta. send_good. Qed.

Lemma transferSingle_good (outsGwei : list (string * Z)) (feeGwei : Z) :
  Good (transferSingle TxData txMemo createTransfer Proof proveTx verify
          validateAddress jobIdOf outsGwei feeGwei).
Proof. unfold transferSingle, Send.updateState. cbv zeta. send_good. Qed.

Lemma withdrawSingle_good (address : string) (amountGwei feeGwei : Z) :
  Good (withdrawSingle TxData txMemo createWithdraw Proof proveTx verify
          jobIdOf address amountGwei feeGwei).
Proof. unfold withdrawSingle, Send.updateState. cbv zeta. send_good. Qed.

(** C6: in each of [transferMulti], [withdrawMulti], [deposit],
    [depositPermittable], [transferSingle] and [withdrawSingle], an attempt
    in which a locally generated proof fails [Proof.verify] throws, and its
    log holds no [sendTransactions]. *)
Theorem failed_proof_never_sent :
  (forall to amountGwei feeGwei,
     aborted_unsent (transferMulti IN TxData txMemo createMultiTransfer Proof proveTx verify
                       validateAddress jobIdOf state to amountGwei feeGwei)) /\
  (forall address amountGwei feeGwei,
     aborted_unsent (withdrawMulti IN TxData txMemo createMultiWithdraw Proof proveTx verify
                       jobIdOf state address amountGwei feeGwei)) /\
  (forall amountGwei fromAddress feeGwei,
     aborted_unsent (deposit TxData txMemo createDeposit nullifierHex Proof proveTx verify sign
                       jobIdOf amountGwei fromAddress feeGwei)) /\
  (forall amountGwei fromAddress feeGwei,
     aborted_unsent (depositPermittable TxData txMemo createDepositPermittable Proof proveTx
                       verify signTypedData deadline jobIdOf denominator
                       amountGwei fromAddress feeGwei)) /\
  (forall outsGwei feeGwei,
     aborted_unsent (transferSingle TxData txMemo createTransfer Proof proveTx verify
                       validateAddress jobIdOf outsGwei feeGwei)) /\
  (forall address amountGwei feeGwei,
     aborted_unsent (withdrawSingle TxData txMemo createWithdraw Proof proveTx verify
                       jobIdOf address amountGwei feeGwei)).
Proof.
  split; [|split; [|split; [|split; [|split]]]].
  - intros x y z. apply good_aborted_unsent, transferMulti_good.
  - intros x y z. apply good_aborted_unsent, withdrawMulti_good.
  - intros x y z. apply good_aborted_unsent, deposit_good.
  - intros x y z. apply good_aborted_unsent, depositPermittable_good.
  - intros x y. apply good_aborted_unsent, transferSingle_good.
  - intros x y z. apply good_aborted_unsent, withdrawSingle_good.
Qed.

End SendProofs.

Lemma failed_proof_never_sent_witness :
  let m := Send.withdrawSingle unit (fun _ => ""%string) (fun _ _ _ => tt) unit (fun _ => tt)
             (fun _ => false) (fun _ => "job"%string) "0xabc"%string 20000000 1000000 in
  In (Send.VerifyProof false) (snd m) /\ (exists e, fst m = inl e) /\ no_send (snd m) = true.
Proof.
  intros m. split; [vm_compute; auto|].
  exact (proj2 (proj2 (proj2 (proj2 (proj2
    (failed_proof_never_sent 3 unit (fun _ => ""%string) (fun _ _ => tt) (fun _ _ _ _ => tt)
       (fun _ _ => tt) (fun _ _ _ => tt) (fun _ => []) (fun _ => []) (fun _ => ""%string)
       unit (fun _ => tt) (fun _ => false) (fun _ => true) (fun s => s) (fun _ _ => ""%string)
       0 (fun _ => "job"%string) (mkZkBobState [] 0) 1)))))
    "0xabc"%string 20000000 1000000 ltac:(vm_compute; auto)).
Defined.

(* ------------------------------------------------------------------ *)
(** ** Relayer polling loops (client.ts, lines 83-93, 251-275, 727-749) *)

Module Jobs.

(** A job as the relayer reports it in JSON; [getJob] hands the parsed
    object through, so a relayer-supplied failure reason, when the relayer
    sends one, is in it. *)
Record Job := mkJob {
  state : string;
  txHash : list string;
  failedReason : option string
}.

(** The answer to [GET /job/{id}] as [getJob] sees it: the request fails
    or the body is not JSON, and [fetch] or [res.json()] throws (the error
    message); the body parses to a JSON string, the relayer's answer for an
    unknown job (a JSON [null] takes the same path: [getJob] returns
    [null]); or it parses to a job object. *)
Inductive JobResponse :=
| JobFetchError (error : string)
| JobJsonString (body : string)
| JobJson (job : Job).

(** [getJob] (lines 83-93): throws with the error of [fetch] or
    [res.json()], returns [null] for a string body, or the parsed job. *)
Definition getJob (res : JobResponse) : string + option Job :=
  match res with
  | JobFetchError e => inl e
  | JobJsonString _ => inr None
  | JobJson j => inr (Some j)
  end.

Inductive WaitResult :=
| Threw (message : string)
| Completed (hashes : list string)
| StillPolling.

(** The [while (true)] loop of [waitJobCompleted]; [responses n] is the
    relayer's answer to the [n]-th poll, and [fuel] bounds the number of
    polls observed ([StillPolling] when it runs out). *)
Fixpoint waitLoop (jobId : string) (responses : nat -> JobResponse) (fuel n : nat) : WaitResult :=
  match fuel with
  | O => StillPolling
  | S f =>
      match getJob (responses n) with
      | inl e => Threw e
      | inr None => Threw ("Job " ++ jobId ++ " not found")
      | inr (Some job) =>
          if String.eqb (state job) "failed" then Threw ("Transaction [job " ++ jobId ++ "] failed")
          else if String.eqb (state job) "completed" then Completed (txHash job)
          else waitLoop jobId responses f (S n)
      end
  end%string.

Definition waitJobCompleted (jobId : string) (responses : nat -> JobResponse) (fuel : nat)
    : WaitResult :=
  waitLoop jobId responses fuel 0.

(** Whether [needle] occurs in [hay]. *)
Definition contains (needle hay : string) : bool :=
  match String.index 0 needle hay with Some _ => true | None => false end.

End Jobs.

Module Ready.

Definition INTERVAL_MS : Z := 1000.
Definition MAX_ATTEMPTS : nat := 300.

(** How one [updateState] call ends. *)
Inductive UpdOutcome :=
| UpdOk (ready : bool)
| UpdErr (message : string).

Inductive ReadyEvent :=
| CallUpdateState
| Sleep (ms : Z).

Inductive ReadyResult :=
| Returns (ready : bool)
| Throws (message : string).

(** The loop of [waitReadyToTransact]; [upd k] is the outcome of the
    [k]-th [updateState] call, which is also the value of [attepts] at
    that call.  [None]: the fuel ran out before the loop ended. *)
Fixpoint waitLoop (upd : nat -> UpdOutcome) (fuel attepts : nat)
    : option (ReadyResult * list ReadyEvent) :=
  match fuel with
  | O => None
  | S f =>
      match upd attepts with
      | UpdErr e => Some (Throws e, [CallUpdateState])
      | UpdOk true => Some (Returns true, [CallUpdateState])
      | UpdOk false =>
          let attepts := S attepts in
          if (MAX_ATTEMPTS <? attepts)%nat then Some (Returns false, [CallUpdateState])
          else option_map (fun '(r, ev) => (r, CallUpdateState :: Sleep INTERVAL_MS :: ev))
                 (waitLoop upd f attepts)
      end
  end.

Definition waitReadyToTransact (upd : nat -> UpdOutcome) (fuel : nat)
    : option (ReadyResult * list ReadyEvent) :=
  waitLoop upd fuel 0.

Definition count_calls (ev : list ReadyEvent) : nat :=
  List.length (filter (fun e => match e with CallUpdateState => true | _ => false end) ev).

End Ready.

(* ------------------------------------------------------------------ *)
(** ** Polling loop lemmas *)

(** A poll whose answer is a job in a non-final state. *)
Definition job_pending (r : Jobs.JobResponse) : Prop :=
  exists j, r = Jobs.JobJson j /\ Jobs.state j <> "failed"%string /\ Jobs.state j <> "completed"%string.

Lemma jobs_waitLoop_pending (jobId : string) (responses : nat -> Jobs.JobResponse) (k : nat) :
  forall fuel n, (forall m, (n <= m < k)%nat -> job_pending (responses m)) ->
  ((fuel + n <= k)%nat -> Jobs.waitLoop jobId responses fuel n = Jobs.StillPolling) /\
  ((n <= k)%nat -> (k < fuel + n)%nat -> ~ job_pending (responses k) ->
   Jobs.waitLoop jobId responses fuel n = Jobs.waitLoop jobId responses 1 k).
Proof.
  induction fuel as [|f IH]; intros n Hp.
  - split; [reflexivity | lia].
  - destruct (Nat.lt_ge_cases n k) as [Hlt|Hge].
    + destruct (Hp n ltac:(lia)) as [j [Hr [Hf Hc]]].
      apply String.eqb_neq in Hf. apply String.eqb_neq in Hc.
      destruct (IH (S n)) as [IH1 IH2]; [intros m Hm; apply Hp; lia|].
      split.
      * intros Hle. simpl. rewrite Hr. simpl. rewrite Hf, Hc. apply IH1. lia.
      * intros _ Hk Hnp. simpl. rewrite Hr. simpl. rewrite Hf, Hc. apply IH2; [lia|lia|exact Hnp].
    + split; [lia|]. intros Hle _ Hnp. replace n with k by lia.
      simpl. destruct (responses k) as [e|body|j] eqn:Hr; [reflexivity|reflexivity|]. simpl.
      destruct (String.eqb (Jobs.state j) "failed") eqn:Hf; [reflexivity|].
      destruct (String.eqb (Jobs.state j) "completed") eqn:Hc; [reflexivity|].
      exfalso. apply Hnp. exists j. apply String.eqb_neq in Hf. apply String.eqb_neq in Hc. auto.
Qed.

(** C8 (as the code does it): after any number of polls that report the
    job in a non-final state, a job reported ["failed"] throws
    "Transaction [job <id>] failed", whatever reason the relayer sent, and
    a job the relayer does not know (it answers with a JSON string) throws
    "Job <id> not found" at that poll, without polling again. *)
Theorem waitJobCompleted_errors (jobId : string) (responses : nat -> Jobs.JobResponse)
    (k : nat) (Hpending : forall m, (m < k)%nat -> job_pending (responses m))
    (fuel : nat) (Hfuel : (k < fuel)%nat) :
  (forall body, responses k = Jobs.JobJsonString body ->
   Jobs.waitJobCompleted jobId responses fuel = Jobs.Threw ("Job " ++ jobId ++ " not found")) /\
  (forall job, responses k = Jobs.JobJson job -> Jobs.state job = "failed"%string ->
   Jobs.waitJobCompleted jobId responses fuel
   = Jobs.Threw ("Transaction [job " ++ jobId ++ "] failed")).
Proof.
  unfold Jobs.waitJobCompleted.
  assert (Hp : forall m, (0 <= m < k)%nat -> job_pending (responses m)) by (intros m Hm; apply Hpending; lia).
  split.
  - intros body Hr.
    rewrite (proj2 (jobs_waitLoop_pending jobId responses k fuel 0 Hp)); [| lia | lia |].
    + simpl. rewrite Hr. reflexivity.
    + intros [j' [Hr' _]]. rewrite Hr in Hr'. discriminate.
  - intros job Hr Hs.
    rewrite (proj2 (jobs_waitLoop_pending jobId responses k fuel 0 Hp)); [| lia | lia |].
    + simpl. rewrite Hr. simpl. rewrite Hs. reflexivity.
    + intros [j' [Hr' [Hf' _]]]. rewrite Hr in Hr'. injection Hr' as <-. contradiction.
Qed.

(** A job that waits at the first poll and fails, with a reason, at the
    second. *)
Definition job_fails_later (m : nat) : Jobs.JobResponse :=
  match m with
  | O => Jobs.JobJson (Jobs.mkJob "queued" [] None)
  | _ => Jobs.JobJson (Jobs.mkJob "failed" [] (Some "nonce too low"%string))
  end.

Lemma waitJobCompleted_errors_witness :
  (forall m, (m < 1)%nat -> job_pending (job_fails_later m)) /\ (1 < 3)%nat /\
  Jobs.waitJobCompleted "42" job_fails_later 3 = Jobs.Threw ("Transaction [job " ++ "42" ++ "] failed").
Proof.
  assert (Hp : forall m, (m < 1)%nat -> job_pending (job_fails_later m)).
  { intros m Hm. replace m with 0%nat by lia.
    exists (Jobs.mkJob "queued" [] None). split; [reflexivity|]. split; discriminate. }
  split; [exact Hp|]. split; [lia|].
  apply (proj2 (waitJobCompleted_errors "42" job_fails_later 1%nat Hp 3%nat ltac:(lia))
           (Jobs.mkJob "failed" [] (Some "nonce too low"%string)) eq_refl eq_refl).
Defined.

(** C8 fails as stated: a job the relayer reports failed with the reason
    "nonce too low" makes [waitJobCompleted] throw an error whose message
    does not carry that reason. *)
Lemma waitJobCompleted_drops_reason :
  Jobs.waitJobCompleted "42"
    (fun _ => Jobs.JobJson (Jobs.mkJob "failed" [] (Some "nonce too low"%string))) 5
  = Jobs.Threw "Transaction [job 42] failed" /\
  Jobs.contains "nonce too low" "Transaction [job 42] failed" = false.
Proof. split; vm_compute; reflexivity. Qed.

Lemma ready_loop_stable (upd : nat -> Ready.UpdOutcome) :
  forall fuel attepts, (attepts <= 300)%nat -> (301 <= fuel + attepts)%nat ->
  Ready.waitLoop upd fuel attepts = Ready.waitLoop upd (301 - attepts) attepts /\
  Ready.waitLoop upd fuel attepts <> None.
Proof.
  induction fuel as [|f IH]; intros a Ha Hf; [lia|].
  destruct (301 - a)%nat as [|n] eqn:E; [lia|].
  simpl. destruct (upd a) as [[|]|e]; try (split; [reflexivity|discriminate]).
  destruct (Ready.MAX_ATTEMPTS <? S a)%nat eqn:Hm; [split; [reflexivity|discriminate]|].
  apply Nat.ltb_ge in Hm. unfold Ready.MAX_ATTEMPTS in Hm.
  destruct (IH (S a)) as [H1 H2]; [lia|lia|].
  replace n with (301 - S a)%nat by lia.
  split.
  - rewrite H1. reflexivity.
  - destruct (Ready.waitLoop upd f (S a)); simpl; [discriminate|contradiction].
Qed.

Lemma ready_loop_events (upd : nat -> Ready.UpdOutcome) :
  forall fuel attepts r ev, (attepts <= 300)%nat ->
  Ready.waitLoop upd fuel attepts = Some (r, ev) ->
  (Ready.count_calls ev <= 301 - attepts)%nat /\
  (forall ms, In (Ready.Sleep ms) ev -> ms = Ready.INTERVAL_MS).
Proof.
  induction fuel as [|f IH]; intros a r ev Ha H; simpl in H; [discriminate|].
  destruct (upd a) as [[|]|e].
  - injection H as <- <-. unfold Ready.count_calls. cbn [filter List.length].
    split; [lia|]. intros ms [Hm|[]]. discriminate.
  - destruct (Ready.MAX_ATTEMPTS <? S a)%nat eqn:Hm.
    + injection H as <- <-. unfold Ready.count_calls. cbn [filter List.length].
      split; [lia|]. intros ms [Hm'|[]]. discriminate.
    + apply Nat.ltb_ge in Hm. unfold Ready.MAX_ATTEMPTS in Hm.
      destruct (Ready.waitLoop upd f (S a)) as [[r' ev']|] eqn:Hl; [|discriminate].
      simpl in H. injection H as <- <-.
      destruct (IH (S a) r' ev' ltac:(lia) Hl) as [Hc Hs].
      unfold Ready.count_calls in *. cbn [filter List.length]. split; [lia|].
      intros ms [Hm'|[Hm'|Hm']]; [discriminate| injection Hm' as <-; reflexivity | auto].
  - injection H as <- <-. unfold Ready.count_calls. cbn [filter List.length].
    split; [lia|]. intros ms [Hm|[]]. discriminate.
Qed.

Lemma ready_loop_never_ready (upd : nat -> Ready.UpdOutcome) :
  forall fuel attepts, (attepts <= 300)%nat -> fuel = (301 - attepts)%nat ->
  (forall k, (attepts <= k <= 300)%nat -> upd k = Ready.UpdOk false) ->
  exists ev, Ready.waitLoop upd fuel attepts = Some (Ready.Returns false, ev) /\
             Ready.count_calls ev = fuel.
Proof.
  induction fuel as [|f IH]; intros a Ha Hf Hupd; [lia|].
  simpl. rewrite (Hupd a) by lia.
  destruct (Ready.MAX_ATTEMPTS <? S a)%nat eqn:Hm.
  - apply Nat.ltb_lt in Hm. unfold Ready.MAX_ATTEMPTS in Hm.
    exists [Ready.CallUpdateState]. split; [reflexivity|].
    unfold Ready.count_calls. cbn [filter List.length]. lia.
  - apply Nat.ltb_ge in Hm. unfold Ready.MAX_ATTEMPTS in Hm.
    destruct (IH (S a)) as [ev [Hl Hc]]; [lia|lia| intros k Hk; apply Hupd; lia|].
    rewrite Hl. exists (Ready.CallUpdateState :: Ready.Sleep Ready.INTERVAL_MS :: ev).
    split; [reflexivity|]. unfold Ready.count_calls in *. cbn [filter List.length]. lia.
Qed.

(** C9: whatever each [updateState] call yields, [waitReadyToTransact]
    ends after at most [MAX_ATTEMPTS + 1 = 301] calls: with any fuel of at
    least 301 it returns the same result as with exactly 301 steps, every
    pause between calls lasts [INTERVAL_MS = 1000] ms, and when no call
    reports readiness it returns [false] (it does not throw) after 301
    calls. *)
Theorem waitReadyToTransact_bounded (upd : nat -> Ready.UpdOutcome) (fuel : nat)
    (Hfuel : (301 <= fuel)%nat) :
  (exists r ev,
     Ready.waitReadyToTransact upd fuel = Some (r, ev) /\
     Ready.waitReadyToTransact upd 301 = Some (r, ev) /\
     (Ready.count_calls ev <= 301)%nat /\
     (forall ms, In (Ready.Sleep ms) ev -> ms = Ready.INTERVAL_MS)) /\
  ((forall k, (k <= Ready.MAX_ATTEMPTS)%nat -> upd k = Ready.UpdOk false) ->
   exists ev, Ready.waitReadyToTransact upd fuel = Some (Ready.Returns false, ev) /\
              Ready.count_calls ev = 301%nat).
Proof.
  unfold Ready.waitReadyToTransact.
  destruct (ready_loop_stable upd fuel 0 ltac:(lia) ltac:(lia)) as [Hst Hnn].
  change (301 - 0)%nat with 301%nat in Hst.
  split.
  - destruct (Ready.waitLoop upd fuel 0) as [[r ev]|] eqn:Hl; [|contradiction].
    exists r, ev. split; [reflexivity|]. split; [symmetry; exact Hst|].
    exact (ready_loop_events upd fuel 0 r ev ltac:(lia) Hl).
  - intros Hupd. rewrite Hst.
    apply (ready_loop_never_ready upd 301 0); [lia|reflexivity|].
    intros k Hk. apply Hupd. unfold Ready.MAX_ATTEMPTS. lia.
Qed.

Lemma waitReadyToTransact_bounded_witness :
  (301 <= 1000)%nat /\
  exists ev, Ready.waitReadyToTransact (fun _ => Ready.UpdOk false) 1000
             = Some (Ready.Returns false, ev) /\ Ready.count_calls ev = 301%nat.
Proof.
  split; [lia|].
  apply (proj2 (waitReadyToTransact_bounded (fun _ => Ready.UpdOk false) 1000 ltac:(lia))).
  intros k _. reflexivity.
Defined.

(* ------------------------------------------------------------------ *)
Lemma notesPartsLoop_app (IN len : nat) (rest : list (Z * Note)) :
  forall i np cp, notesPartsLoop IN len i rest np cp = np ++ notesPartsLoop IN len i rest [] cp.
Proof.
  induction rest as [|[k n] rest IH]; intros i np cp; simpl; [rewrite app_nil_r; reflexivity|].
  destruct ((0 <? i)%nat && (Nat.modulo i IN =? 0)%nat);
    destruct (i =? len - 1)%nat;
    rewrite IH; symmetry; rewrite IH; simpl; rewrite ?app_nil_r, <- ?app_assoc; reflexivity.
Qed.

Definition notes_total (notes : list (Z * Note)) : Z :=
  fold_right (fun '(_, n) acc => b n + acc) 0 notes.
Definition sum_list (l : list Z) : Z := fold_right Z.add 0 l.
Fixpoint chunk_breaks (IN : nat) (i m : nat) : nat :=
  match m with
  | O => O
  | S m' => (if (0 <? i)%nat && (Nat.modulo i IN =? 0)%nat then 1 else 0) + chunk_breaks IN (S i) m'
  end.
Lemma sum_list_app (l1 l2 : list Z) : sum_list (l1 ++ l2) = sum_list l1 + sum_list l2.
Proof. induction l1 as [|x l1 IH]; simpl; [reflexivity|]. rewrite IH. lia. Qed.

Lemma notesPartsLoop_sum (IN len : nat) (rest : list (Z * Note)) :
  forall i cp, rest <> [] -> (i + List.length rest = len)%nat ->
  sum_list (notesPartsLoop IN len i rest [] cp) = cp + notes_total rest.
Proof.
  induction rest as [|[k n] rest IH]; intros i cp Hne Hlen; [congruence|].
  simpl. destruct rest as [|y r].
  - replace (i =? len - 1)%nat with true by (symmetry; apply Nat.eqb_eq; simpl in Hlen; lia).
    destruct ((0 <? i)%nat && (Nat.modulo i IN =? 0)%nat); simpl; lia.
  - replace (i =? len - 1)%nat with false by (symmetry; apply Nat.eqb_neq; simpl in Hlen; lia).
    assert (Hl : (S i + List.length (y :: r) = len)%nat) by (simpl in *; lia).
    destruct ((0 <? i)%nat && (Nat.modulo i IN =? 0)%nat).
    + rewrite notesPartsLoop_app, sum_list_app, IH by (congruence || exact Hl).
      simpl. lia.
    + rewrite IH by (congruence || exact Hl). simpl. lia.
Qed.

Lemma notesPartsLoop_length (IN len : nat) (rest : list (Z * Note)) :
  forall i cp, rest <> [] -> (i + List.length rest = len)%nat ->
  List.length (notesPartsLoop IN len i rest [] cp) = S (chunk_breaks IN i (List.length rest)).
Proof.
  induction rest as [|[k n] rest IH]; intros i cp Hne Hlen; [congruence|].
  cbn [notesPartsLoop List.length chunk_breaks]. destruct rest as [|y r].
  - replace (i =? len - 1)%nat with true by (symmetry; apply Nat.eqb_eq; simpl in Hlen; lia).
    destruct ((0 <? i)%nat && (Nat.modulo i IN =? 0)%nat); simpl; lia.
  - replace (i =? len - 1)%nat with false by (symmetry; apply Nat.eqb_neq; simpl in Hlen; lia).
    assert (Hl : (S i + List.length (y :: r) = len)%nat) by (simpl in *; lia).
    destruct ((0 <? i)%nat && (Nat.modulo i IN =? 0)%nat).
    + rewrite notesPartsLoop_app, length_app, IH by (congruence || exact Hl).
      simpl. lia.
    + rewrite IH by (congruence || exact Hl). simpl. lia.
Qed.

Lemma chunk_breaks_snoc (IN : nat) (m : nat) : forall i,
  chunk_breaks IN i (S m) =
  (chunk_breaks IN i m + (if (0 <? i + m)%nat && (Nat.modulo (i + m) IN =? 0)%nat then 1 else 0))%nat.
Proof.
  induction m as [|m IH]; intros i.
  - cbn [chunk_breaks]. replace (i + 0)%nat with i by lia.
    destruct ((0 <? i)%nat && (Nat.modulo i IN =? 0)%nat); cbn [chunk_breaks]; lia.
  - change (chunk_breaks IN i (S (S m))) with
      ((if (0 <? i)%nat && (Nat.modulo i IN =? 0)%nat then 1 else 0) + chunk_breaks IN (S i) (S m))%nat.
    rewrite IH. replace (S i + m)%nat with (i + S m)%nat by lia.
    cbn [chunk_breaks]. lia.
Qed.

Lemma div_succ (IN n : nat) : (0 < IN)%nat ->
  (S n / IN = n / IN + (if Nat.modulo (S n) IN =? 0 then 1 else 0))%nat.
Proof.
  intros HIN.
  pose proof (Nat.div_mod_eq n IN) as Hd. pose proof (Nat.mod_bound_pos n IN ltac:(lia) HIN) as Hb.
  set (q := (n / IN)%nat) in *. set (r := Nat.modulo n IN) in *.
  destruct (Nat.eq_dec (S r) IN) as [E|E].
  - assert (Hq : (S n / IN = S q)%nat) by (symmetry; apply Nat.div_unique with 0%nat; lia).
    assert (Hm : (Nat.modulo (S n) IN = 0)%nat) by (symmetry; apply Nat.mod_unique with (S q); lia).
    rewrite Hq, Hm. simpl. lia.
  - assert (Hq : (S n / IN = q)%nat) by (symmetry; apply Nat.div_unique with (S r); lia).
    assert (Hm : (Nat.modulo (S n) IN = S r)%nat) by (symmetry; apply Nat.mod_unique with q; lia).
    rewrite Hq, Hm. simpl. lia.
Qed.

Lemma chunk_breaks_from0 (IN : nat) (HIN : (0 < IN)%nat) (n : nat) :
  chunk_breaks IN 0 (S n) = (n / IN)%nat.
Proof.
  induction n as [|n IH].
  - simpl. rewrite Nat.Div0.div_0_l. reflexivity.
  - rewrite chunk_breaks_snoc, IH, div_succ by exact HIN. simpl. reflexivity.
Qed.

Lemma notesParts_length (IN : nat) (HIN : (0 < IN)%nat) (notes : list (Z * Note)) :
  List.length (notesParts IN notes) = ((List.length notes + IN - 1) / IN)%nat.
Proof.
  unfold notesParts. destruct notes as [|nt rest] eqn:E.
  - simpl. rewrite Nat.div_small by lia. reflexivity.
  - rewrite <- E. rewrite notesPartsLoop_length by (subst; congruence || lia).
    rewrite E. simpl List.length. rewrite chunk_breaks_from0 by exact HIN.
    replace (S (List.length rest) + IN - 1)%nat with (1 * IN + List.length rest)%nat by lia.
    rewrite Nat.div_add_l by lia. lia.
Qed.

Lemma notesParts_sum (IN : nat) (notes : list (Z * Note)) :
  sum_list (notesParts IN notes) = notes_total notes.
Proof.
  unfold notesParts. destruct notes as [|nt rest] eqn:E; [reflexivity|].
  rewrite <- E. rewrite notesPartsLoop_sum by (subst; congruence || lia). lia.
Qed.

(** The split the first loop of [getTransactionParts] is meant to make:
    consecutive runs of [IN] notes, the last one possibly shorter. *)
Fixpoint note_chunks_fuel (IN fuel : nat) (notes : list (Z * Note)) : list (list (Z * Note)) :=
  match fuel with
  | O => []
  | S f =>
      match notes with
      | [] => []
      | _ :: _ => firstn IN notes :: note_chunks_fuel IN f (skipn IN notes)
      end
  end.

Definition note_chunks (IN : nat) (notes : list (Z * Note)) : list (list (Z * Note)) :=
  note_chunks_fuel IN (List.length notes) notes.

Lemma note_chunks_fuel_irrel (IN : nat) (HIN : (0 < IN)%nat) :
  forall f1 f2 l, (List.length l <= f1)%nat -> (List.length l <= f2)%nat ->
  note_chunks_fuel IN f1 l = note_chunks_fuel IN f2 l.
Proof.
  induction f1 as [|f1 IH]; intros [|f2] l H1 H2.
  - reflexivity.
  - destruct l; [reflexivity | simpl in H1; lia].
  - destruct l; [reflexivity | simpl in H2; lia].
  - destruct l as [|x l]; [reflexivity|]. simpl.
    f_equal. apply IH; rewrite length_skipn; cbn [List.length] in *; lia.
Qed.

Lemma note_chunks_nil (IN : nat) : note_chunks IN [] = [].
Proof. reflexivity. Qed.

Lemma note_chunks_cons (IN : nat) (HIN : (0 < IN)%nat) (x : Z * Note) (l : list (Z * Note)) :
  note_chunks IN (x :: l) = firstn IN (x :: l) :: note_chunks IN (skipn IN (x :: l)).
Proof.
  unfold note_chunks at 1. simpl List.length. cbn [note_chunks_fuel]. f_equal.
  unfold note_chunks. apply note_chunks_fuel_irrel; [exact HIN| |lia].
  rewrite length_skipn. cbn [List.length]. lia.
Qed.

Lemma mod_block (IN q r i : nat) : (0 < IN)%nat -> (r < IN)%nat -> (i + r = q * IN)%nat ->
  (Nat.modulo i IN =? 0)%nat = (r =? 0)%nat.
Proof.
  intros HIN Hr Hq. destruct r as [|r].
  - rewrite Nat.add_0_r in Hq. subst i. rewrite Nat.Div0.mod_mul. reflexivity.
  - destruct q as [|q]; [simpl in Hq; lia|].
    replace i with ((IN - S r) + q * IN)%nat by (simpl in Hq; lia).
    rewrite Nat.Div0.mod_add, Nat.mod_small by lia.
    apply Nat.eqb_neq. lia.
Qed.

Lemma notesPartsLoop_blocks (IN len : nat) (HIN : (0 < IN)%nat) (rest : list (Z * Note)) :
  forall i np cp r q, (i + List.length rest = len)%nat -> rest <> [] -> (0 < i)%nat ->
  (r < IN)%nat -> (i + r = q * IN)%nat ->
  notesPartsLoop IN len i rest np cp
  = np ++ (cp + notes_total (firstn r rest)) :: map notes_total (note_chunks IN (skipn r rest)).
Proof.
  induction rest as [|[k n] rest IH]; intros i np cp r q Hlen Hne Hi Hr Hq; [congruence|].
  cbn [notesPartsLoop].
  rewrite (mod_block IN q r i HIN Hr Hq).
  replace (0 <? i)%nat with true by (symmetry; apply Nat.ltb_lt; exact Hi).
  cbn [andb].
  destruct r as [|r].
  - cbn [Nat.eqb firstn skipn]. rewrite note_chunks_cons by exact HIN. cbn [map].
    destruct rest as [|n2 rest'].
    + simpl in Hlen. replace (i =? len - 1)%nat with true by (symmetry; apply Nat.eqb_eq; lia).
      cbn [notesPartsLoop]. destruct IN as [|IN']; [lia|]. cbn [firstn skipn].
      rewrite firstn_nil, skipn_nil, note_chunks_nil. simpl. rewrite <- app_assoc. simpl.
      f_equal. f_equal; [lia|]. f_equal. lia.
    + replace (i =? len - 1)%nat with false by (symmetry; apply Nat.eqb_neq; simpl in Hlen; lia).
      rewrite (IH (S i) (np ++ [cp]) (0 + b n) (IN - 1)%nat (S q)); [| simpl in *; lia | congruence | lia | lia | simpl; lia].
      destruct IN as [|IN']; [lia|]. replace (S IN' - 1)%nat with IN' by lia. cbn [firstn skipn].
      rewrite <- app_assoc. simpl. rewrite Z.add_0_r. reflexivity.
  - cbn [Nat.eqb]. cbn [firstn skipn].
    destruct rest as [|n2 rest'].
    + simpl in Hlen. replace (i =? len - 1)%nat with true by (symmetry; apply Nat.eqb_eq; lia).
      cbn [notesPartsLoop]. rewrite firstn_nil, skipn_nil, note_chunks_nil. simpl. f_equal. f_equal. lia.
    + replace (i =? len - 1)%nat with false by (symmetry; apply Nat.eqb_neq; simpl in Hlen; lia).
      rewrite (IH (S i) np (cp + b n) r q); [| simpl in *; lia | congruence | lia | lia | lia].
      f_equal. f_equal. simpl. lia.
Qed.

Lemma notesParts_blocks (IN : nat) (HIN : (0 < IN)%nat) (notes : list (Z * Note)) :
  notesParts IN notes = map notes_total (note_chunks IN notes).
Proof.
  unfold notesParts. destruct notes as [|[k n] rest]; [reflexivity|].
  rewrite note_chunks_cons by exact HIN. cbn [notesPartsLoop].
  replace (0 <? 0)%nat with false by reflexivity. cbn [andb].
  destruct rest as [|n2 rest'].
  - simpl. destruct IN as [|IN']; [lia|]. cbn [firstn skipn].
    rewrite firstn_nil, skipn_nil, note_chunks_nil. simpl. rewrite Z.add_0_r. reflexivity.
  - replace (0 =? List.length ((k, n) :: n2 :: rest') - 1)%nat with false by reflexivity.
    rewrite (notesPartsLoop_blocks IN _ HIN (n2 :: rest') 1 [] (0 + b n) (IN - 1)%nat 1);
      [| simpl; lia | congruence | lia | lia | lia].
    destruct IN as [|IN']; [lia|]. replace (S IN' - 1)%nat with IN' by lia. cbn [firstn skipn].
    simpl. f_equal.
Qed.

Lemma note_chunks_shape (IN : nat) (HIN : (0 < IN)%nat) :
  forall f l, (List.length l <= f)%nat ->
  List.concat (note_chunks_fuel IN f l) = l /\
  Forall (fun c => 0 < List.length c <= IN)%nat (note_chunks_fuel IN f l) /\
  Forall (fun c => List.length c = IN) (removelast (note_chunks_fuel IN f l)).
Proof.
  induction f as [|f IH]; intros l Hl.
  - destruct l; [|simpl in Hl; lia]. simpl. auto.
  - destruct l as [|x l]; [simpl; auto|].
    destruct (IH (skipn IN (x :: l))) as (Hc & Hb & Hr); [rewrite length_skipn; cbn [List.length] in *; lia|].
    cbn [note_chunks_fuel]. split; [|split].
    + cbn [List.concat]. rewrite Hc. apply firstn_skipn.
    + constructor; [|exact Hb]. rewrite length_firstn. simpl. lia.
    + destruct (note_chunks_fuel IN f (skipn IN (x :: l))) as [|c cs] eqn:E.
      * constructor.
      * change (removelast (firstn IN (x :: l) :: c :: cs)) with (firstn IN (x :: l) :: removelast (c :: cs)).
        constructor; [|exact Hr].
        assert (Hs : skipn IN (x :: l) <> []) by (intros Hs; rewrite Hs in E; destruct f; discriminate).
        rewrite length_firstn.
        assert (IN < List.length (x :: l))%nat.
        { destruct (Nat.lt_ge_cases IN (List.length (x :: l))) as [H|H]; [exact H|].
          exfalso. apply Hs. apply skipn_all2. exact H. }
        lia.
Qed.

(** [notesParts] (the first loop of [getTransactionParts], client.ts
    lines 673-688) splits the usable notes into consecutive runs of [IN]
    notes, the last run possibly shorter, and yields the balance of each
    run: the runs, put back together, are the notes in order; each has
    between 1 and [IN] notes and all but the last exactly [IN]. So there are
    [ceil (length notes / IN)] parts, none for no notes, and they add up to
    the balance of all the notes. *)
Theorem notesParts_chunking (IN : nat) (HIN : (0 < IN)%nat) (notes : list (Z * Note)) :
  let chunks := note_chunks IN notes in
  notesParts IN notes = map notes_total chunks /\
  List.concat chunks = notes /\
  Forall (fun c => 0 < List.length c <= IN)%nat chunks /\
  Forall (fun c => List.length c = IN) (removelast chunks) /\
  List.length (notesParts IN notes) = ((List.length notes + IN - 1) / IN)%nat /\
  sum_list (notesParts IN notes) = notes_total notes.
Proof.
  cbv zeta. split; [apply notesParts_blocks; exact HIN|].
  destruct (note_chunks_shape IN HIN (List.length notes) notes (Nat.le_refl _)) as (Hc & Hb & Hr).
  split; [exact Hc|]. split; [exact Hb|]. split; [exact Hr|].
  split; [apply notesParts_length; exact HIN | apply notesParts_sum].
Qed.

Definition total_cost (l : list TxAmount) : Z :=
  fold_right (fun p acc => amount p + fee p + acc) 0 l.

Lemma total_cost_app (l1 l2 : list TxAmount) : total_cost (l1 ++ l2) = total_cost l1 + total_cost l2.
Proof. induction l1 as [|x l1 IH]; simpl; [reflexivity|]. rewrite IH. lia. Qed.

Lemma partsLoop_shape (feeGwei : Z) (parts : list Z) :
  forall oneTxPart remainAmount result result' remainAmount',
    partsLoop feeGwei parts oneTxPart remainAmount result = (result', remainAmount') ->
    exists added, result' = result ++ added /\ (List.length added <= List.length parts)%nat /\
      Forall (fun t => fee t = feeGwei /\ accountLimit t = 0 /\ 0 <= amount t) added.
Proof.
  induction parts as [|p rest IH]; intros one r res res' r' Hl; simpl in Hl.
  - inversion Hl; subst. exists []. rewrite app_nil_r. simpl. auto.
  - destruct (r >? 0) eqn:Hr;
      [|inversion Hl; subst; exists []; rewrite app_nil_r; simpl; split; [reflexivity|split; [lia|auto]]].
    set (one1 := if one + p - feeGwei >? r then r + feeGwei else one + p) in Hl.
    destruct ((one1 <? feeGwei) || (one1 <? MIN_TX_AMOUNT)) eqn:Hb;
      [inversion Hl; subst; exists []; rewrite app_nil_r; simpl; split; [reflexivity|split; [lia|auto]]|].
    apply orb_false_iff in Hb as [Hb1 _]. apply Z.ltb_ge in Hb1.
    destruct (IH _ _ _ _ _ Hl) as [added [-> [Hlen Hall]]].
    exists (mkTxAmount (one1 - feeGwei) feeGwei 0 :: added).
    rewrite <- app_assoc. simpl. split; [reflexivity|]. split; [lia|].
    constructor; [simpl; repeat split; lia | exact Hall].
Qed.

Lemma partsLoop_cost (feeGwei : Z) (parts : list Z) :
  Forall (fun p => 0 <= p) parts ->
  forall oneTxPart remainAmount result result' remainAmount',
    partsLoop feeGwei parts oneTxPart remainAmount result = (result', remainAmount') ->
    exists added, result' = result ++ added /\
      (added = [] \/ total_cost added <= oneTxPart + sum_list parts).
Proof.
  intros Hpos. induction parts as [|p rest IH]; intros one r res res' r' Hl; simpl in Hl.
  - inversion Hl; subst. exists []. rewrite app_nil_r. auto.
  - inversion Hpos as [|? ? Hp Hrest]; subst.
    destruct (r >? 0) eqn:Hr; [|inversion Hl; subst; exists []; rewrite app_nil_r; auto].
    set (one1 := if one + p - feeGwei >? r then r + feeGwei else one + p) in Hl.
    assert (Hone1 : one1 <= one + p).
    { unfold one1. destruct (one + p - feeGwei >? r) eqn:E; [apply Z.gtb_lt in E; lia | lia]. }
    destruct ((one1 <? feeGwei) || (one1 <? MIN_TX_AMOUNT)) eqn:Hb;
      [inversion Hl; subst; exists []; rewrite app_nil_r; auto|].
    destruct (IH Hrest _ _ _ _ _ Hl) as [added [-> Hc]].
    exists (mkTxAmount (one1 - feeGwei) feeGwei 0 :: added).
    rewrite <- app_assoc. split; [reflexivity|]. right. simpl.
    assert (0 <= sum_list rest) by (clear -Hrest; induction Hrest; simpl; lia).
    destruct Hc as [->|Hc]; simpl; lia.
Qed.

Lemma notesPartsLoop_nonneg (IN len : nat) (rest : list (Z * Note)) :
  Forall (fun '(_, n) => 0 <= b n) rest ->
  forall i np cp, Forall (fun p => 0 <= p) np -> 0 <= cp ->
  Forall (fun p => 0 <= p) (notesPartsLoop IN len i rest np cp).
Proof.
  intros Hr. induction Hr as [|[k n] rest Hn Hr IH]; intros i np cp Hnp Hcp; simpl; [exact Hnp|].
  simpl in Hn.
  destruct ((0 <? i)%nat && (Nat.modulo i IN =? 0)%nat); destruct (i =? len - 1)%nat;
    apply IH; repeat (first [apply Forall_app; split | constructor]); auto; lia.
Qed.

Lemma notes_total_nonneg (notes : list (Z * Note)) :
  Forall (fun '(_, n) => 0 <= b n) notes -> 0 <= notes_total notes.
Proof. intros H. induction H as [|[k n] l Hn _ IH]; simpl; lia. Qed.

Lemma parts_shape (IN : nat) (HIN : (0 < IN)%nat) (state : ZkBobState)
    (amountGwei feeGwei : Z) :
  let result := getTransactionParts IN state amountGwei feeGwei in
  (List.length result <= Nat.max 1 ((List.length (usableNotes state) + IN - 1) / IN))%nat /\
  Forall (fun t => fee t = feeGwei /\ accountLimit t = 0) result /\
  (accountBalance state < amountGwei + feeGwei -> Forall (fun t => 0 <= amount t) result).
Proof.
  cbv zeta. unfold getTransactionParts.
  destruct (accountBalance state >=? amountGwei + feeGwei) eqn:Hb.
  - apply Z.geb_le in Hb. split; [apply Nat.le_max_l|]. split; [constructor; [simpl; auto | constructor]|].
    intros; lia.
  - destruct (partsLoop feeGwei (notesParts IN (usableNotes state)) (accountBalance state) amountGwei [])
      as [res r] eqn:Hl.
    destruct (partsLoop_shape _ _ _ _ _ _ _ Hl) as [added [Hres [Hlen Hall]]].
    simpl in Hres. subst res. rewrite notesParts_length in Hlen by exact HIN.
    destruct (r >? 0).
    + simpl. split; [apply Nat.le_0_l|]. split; constructor.
    + split; [etransitivity; [exact Hlen | apply Nat.le_max_r]|]. split.
      * eapply Forall_impl; [|exact Hall]. simpl. tauto.
      * intros _. eapply Forall_impl; [|exact Hall]. simpl. tauto.
Qed.

Lemma parts_within_funds (IN : nat) (state : ZkBobState) (amountGwei feeGwei : Z)
    (Hnotes : Forall (fun '(_, n) => 0 <= b n) (usableNotes state)) :
  getTransactionParts IN state amountGwei feeGwei = [] \/
  total_cost (getTransactionParts IN state amountGwei feeGwei)
  <= accountBalance state + notes_total (usableNotes state).
Proof.
  pose proof (notes_total_nonneg _ Hnotes) as Hnt.
  unfold getTransactionParts.
  destruct (accountBalance state >=? amountGwei + feeGwei) eqn:Hb.
  - apply Z.geb_le in Hb. right. simpl. lia.
  - destruct (partsLoop feeGwei (notesParts IN (usableNotes state)) (accountBalance state) amountGwei [])
      as [res r] eqn:Hl.
    assert (Hpos : Forall (fun p => 0 <= p) (notesParts IN (usableNotes state))).
    { unfold notesParts. apply notesPartsLoop_nonneg; auto; lia. }
    destruct (partsLoop_cost _ _ Hpos _ _ _ _ _ Hl) as [added [Hres Hc]].
    simpl in Hres. subst res. rewrite notesParts_sum in Hc.
    destruct (r >? 0); [left; reflexivity|].
    destruct Hc as [->|Hc]; [left; reflexivity | right; exact Hc].
Qed.

(** [getTransactionParts] (client.ts lines 657-714) returns at most
    [max 1 (ceil (length usableNotes / IN))] parts, one per chunk of notes
    at most; every part carries the requested fee and a zero account limit;
    and when the account balance alone does not cover amount plus fee, no
    part has a negative amount. *)
Theorem getTransactionParts_part_shape (IN : nat) (HIN : (0 < IN)%nat) (state : ZkBobState)
    (amountGwei feeGwei : Z) :
  let result := getTransactionParts IN state amountGwei feeGwei in
  (List.length result <= Nat.max 1 ((List.length (usableNotes state) + IN - 1) / IN))%nat /\
  Forall (fun t => fee t = feeGwei /\ accountLimit t = 0) result /\
  (accountBalance state < amountGwei + feeGwei -> Forall (fun t => 0 <= amount t) result).
Proof. exact (parts_shape IN HIN state amountGwei feeGwei). Qed.

(** With notes of non-negative balance, a non-empty plan of
    [getTransactionParts] (client.ts lines 657-714) never spends more,
    amounts and fees together, than the account balance plus the balance of
    the usable notes. *)
Theorem getTransactionParts_within_funds (IN : nat) (state : ZkBobState) (amountGwei feeGwei : Z)
    (Hnotes : Forall (fun '(_, n) => 0 <= b n) (usableNotes state)) :
  getTransactionParts IN state amountGwei feeGwei = [] \/
  total_cost (getTransactionParts IN state amountGwei feeGwei)
  <= accountBalance state + notes_total (usableNotes state).
Proof. exact (parts_within_funds IN state amountGwei feeGwei Hnotes). Qed.


Record FeeAmount := mkFeeAmount {
  total : Z;
  totalPerTx : Z;
  txCnt : nat;
  relayer : Z;
  l1 : Z
}.

Definition feeEstimate (IN : nat) (state : ZkBobState) (amountGwei : Z) (txType : Send.TxType)
    : string + FeeAmount :=
  let relayer := getRelayerFee in
  let l1 := 0 in
  let txCnt := 1%nat in
  let totalPerTx := relayer + l1 in
  let total := totalPerTx in
  match txType with
  | Send.Transfer | Send.Withdraw =>
      let parts := getTransactionParts IN state amountGwei totalPerTx in
      if (List.length parts =? 0)%nat then inl "insufficient funds"%string
      else
        let txCnt := List.length parts in
        inr (mkFeeAmount (totalPerTx * Z.of_nat txCnt) totalPerTx txCnt relayer l1)
  | _ => inr (mkFeeAmount total totalPerTx txCnt relayer l1)
  end.

Lemma getTransactionParts_sum (IN : nat) (state : ZkBobState) (amountGwei feeGwei : Z) :
  getTransactionParts IN state amountGwei feeGwei = [] \/
  sum_amounts (getTransactionParts IN state amountGwei feeGwei) = amountGwei.
Proof.
  unfold getTransactionParts.
  destruct (accountBalance state >=? amountGwei + feeGwei).
  - right. simpl. lia.
  - destruct (partsLoop feeGwei (notesParts IN (usableNotes state)) (accountBalance state) amountGwei [])
      as [res r] eqn:Hl.
    destruct (partsLoop_invariant _ _ _ _ _ _ _ Hl) as [Hs Hor].
    destruct (r >? 0) eqn:Hr; [left; reflexivity|].
    apply Z_gtb_false in Hr. simpl in Hs.
    destruct Hor as [[-> _]|Hor]; [left; reflexivity|]. right. lia.
Qed.

Lemma total_cost_fees (f : Z) (l : list TxAmount) :
  Forall (fun t => fee t = f /\ accountLimit t = 0) l ->
  total_cost l = sum_amounts l + f * Z.of_nat (List.length l).
Proof.
  intros H. induction H as [|t l [Hf _] _ IH]; simpl; [lia|]. rewrite IH, Hf. lia.
Qed.

(** [feeEstimate] (client.ts lines 595-611, with [getRelayerFee], lines
    614-621, and [getTransactionParts] run on the state after its optional
    update): deposits cost one transaction at the relayer fee [TX_FEE]; a
    transfer or withdrawal throws "insufficient funds" exactly when no
    multi-part plan exists, and otherwise counts one transaction per part
    (at least one, at most one per chunk of [IN] notes), charges [TX_FEE]
    per transaction, and the amount plus the total fee stays within the
    account balance plus the notes' balance when notes are non-negative. *)
Theorem feeEstimate_spec (IN : nat) (HIN : (0 < IN)%nat) (state : ZkBobState) (amountGwei : Z)
    (Hnotes : Forall (fun '(_, n) => 0 <= b n) (usableNotes state)) :
  (forall txType, txType = Send.Deposit \/ txType = Send.BridgeDeposit ->
   feeEstimate IN state amountGwei txType = inr (mkFeeAmount TX_FEE TX_FEE 1 TX_FEE 0)) /\
  (forall txType, txType = Send.Transfer \/ txType = Send.Withdraw ->
   let parts := getTransactionParts IN state amountGwei TX_FEE in
   match feeEstimate IN state amountGwei txType with
   | inl msg => msg = "insufficient funds"%string /\ parts = []
   | inr fa =>
       txCnt fa = List.length parts /\
       (1 <= txCnt fa <= Nat.max 1 ((List.length (usableNotes state) + IN - 1) / IN))%nat /\
       totalPerTx fa = TX_FEE /\ relayer fa = TX_FEE /\ l1 fa = 0 /\
       total fa = TX_FEE * Z.of_nat (txCnt fa) /\
       amountGwei + total fa <= accountBalance state + notes_total (usableNotes state)
   end).
Proof.
  split.
  - intros txType [-> | ->]; reflexivity.
  - intros txType Ht. cbv zeta.
    assert (Hfee : getRelayerFee + 0 = TX_FEE) by reflexivity.
    assert (Hfe : feeEstimate IN state amountGwei txType =
      let parts := getTransactionParts IN state amountGwei TX_FEE in
      if (List.length parts =? 0)%nat then inl "insufficient funds"%string
      else inr (mkFeeAmount (TX_FEE * Z.of_nat (List.length parts)) TX_FEE (List.length parts) TX_FEE 0)).
    { destruct Ht as [-> | ->]; reflexivity. }
    rewrite Hfe. cbv zeta. clear Hfe Hfee.
    destruct (getTransactionParts IN state amountGwei TX_FEE) as [|p ps] eqn:Hp.
    + simpl. auto.
    + cbn [List.length Nat.eqb]. cbn [txCnt totalPerTx relayer l1 total].
      pose proof (parts_shape IN HIN state amountGwei TX_FEE) as [Hlen [Hall _]].
      pose proof (parts_within_funds IN state amountGwei TX_FEE Hnotes) as Hc.
      pose proof (getTransactionParts_sum IN state amountGwei TX_FEE) as Hs.
      rewrite Hp in Hlen, Hall, Hc, Hs.
      destruct Hs as [Hs|Hs]; [discriminate|].
      destruct Hc as [Hc|Hc]; [discriminate|].
      rewrite (total_cost_fees TX_FEE) in Hc by exact Hall.
      split; [reflexivity|]. split; [split; [simpl; lia | exact Hlen]|].
      repeat split; try reflexivity. rewrite <- Hs. exact Hc.
Qed.


Fixpoint lookup_denominator (zpStates : list (string * Z)) (tokenAddress : string) : option Z :=
  match zpStates with
  | [] => None
  | (k, d) :: rest => if String.eqb k tokenAddress then Some d else lookup_denominator rest tokenAddress
  end.

Definition shieldedAmountToWei (zpStates : list (string * Z)) (tokenAddress : string) (amountGwei : Z)
    : string + Z :=
  match lookup_denominator zpStates tokenAddress with
  | None => inl "TypeError: Cannot read properties of undefined"%string
  | Some denominator => inr (amountGwei * denominator)
  end.

Definition weiToShieldedAmount (zpStates : list (string * Z)) (tokenAddress : string) (amountWei : Z)
    : string + Z :=
  match lookup_denominator zpStates tokenAddress with
  | None => inl "TypeError: Cannot read properties of undefined"%string
  | Some denominator =>
      if denominator =? 0 then inl "RangeError: Division by zero"%string
      else inr (Z.quot amountWei denominator)
  end.

(** [shieldedAmountToWei] and [weiToShieldedAmount] (client.ts lines
    167-174), for a token whose denominator is positive: converting to wei
    and back is the identity; any wei amount converts to the quotient
    truncated toward zero (rounded down for non-negative amounts, up for
    negative ones); and an unknown token makes both conversions throw. *)
Theorem shielded_wei_conversion (zpStates : list (string * Z)) (tokenAddress : string) (d : Z)
    (Hd : lookup_denominator zpStates tokenAddress = Some d) (Hpos : 0 < d) :
  (forall x, shieldedAmountToWei zpStates tokenAddress x = inr (x * d) /\
             weiToShieldedAmount zpStates tokenAddress (x * d) = inr x) /\
  (forall w, exists x, weiToShieldedAmount zpStates tokenAddress w = inr x /\
     (0 <= w -> x * d <= w < x * d + d) /\
     (w < 0 -> x * d - d < w <= x * d)) /\
  (forall k x, lookup_denominator zpStates k = None ->
     (exists e, shieldedAmountToWei zpStates k x = inl e) /\
     (exists e, weiToShieldedAmount zpStates k x = inl e)).
Proof.
  unfold shieldedAmountToWei, weiToShieldedAmount.
  assert (Hnz : (d =? 0) = false) by (apply Z.eqb_neq; lia).
  split; [|split].
  - intros x. rewrite Hd, Hnz. split; [reflexivity|]. rewrite Z.quot_mul by lia. reflexivity.
  - intros w. rewrite Hd, Hnz. exists (Z.quot w d). split; [reflexivity|]. split.
    + intros Hw. rewrite Z.quot_div_nonneg by lia.
      pose proof (Z.mul_div_le w d Hpos). pose proof (Z.mod_pos_bound w d Hpos).
      pose proof (Z.div_mod w d ltac:(lia)). nia.
    + intros Hw.
      assert (Hq : Z.quot w d = - Z.quot (- w) d) by (rewrite Z.quot_opp_l by lia; lia).
      rewrite Hq, Z.quot_div_nonneg by lia.
      pose proof (Z.mod_pos_bound (- w) d Hpos).
      pose proof (Z.div_mod (- w) d ltac:(lia)). nia.
  - intros k x Hk. rewrite Hk. split; eexists; reflexivity.
Qed.



(** [updateStateOptimisticWorker] (client.ts lines 780-909): when the
    relayer's delta index is not behind the local next index, the worker
    fetches exactly the batch offsets [start, start + step, ...] (step =
    [BATCH_SIZE * OUTPLUSONE]) in order, all between the local index and
    the delta index, and enough of them that the last batch reaches past
    the delta index. *)
Theorem updateStateOptimisticWorker_fetch_offsets (OUT : nat) (deltaIndex : Z)
    (fetchTxs : Z -> Z -> list string) (SU : Type)
    (parseTxs : list IndexedTx.t -> list DecryptedMemo.t * SU) (applyStateUpdate : Z -> SU -> Z)
    (s : SyncState) (H : nextTreeIndex s <= deltaIndex) :
  let offs := sync_offsets OUT (nextTreeIndex s) deltaIndex in
  filter is_fetch (events (snd (updateStateOptimisticWorker OUT deltaIndex fetchTxs SU parseTxs
                                  applyStateUpdate s)))
  = filter is_fetch (events s) ++ map (fun i => FetchTransactionsOptimistic i BATCH_SIZE) offs /\
  (forall i, In i offs -> nextTreeIndex s <= i <= deltaIndex) /\
  deltaIndex < nextTreeIndex s + Z.of_nat (List.length offs) * (BATCH_SIZE * OUTPLUSONE OUT).
Proof.
  cbv zeta. pose proof (step_pos OUT) as Hst.
  split; [|split].
  - rewrite (worker_fetch_path OUT deltaIndex fetchTxs SU parseTxs applyStateUpdate s H). cbv zeta.
    cbn [snd]. unfold emit at 1. cbn [events].
    destruct (processBatches_facts OUT fetchTxs SU parseTxs applyStateUpdate
                (sync_offsets OUT (nextTreeIndex s) deltaIndex)
                (emit (map (fun i => FetchTransactionsOptimistic i BATCH_SIZE)
                   (sync_offsets OUT (nextTreeIndex s) deltaIndex))
                   (mkSyncState (nextTreeIndex s) true (events s ++ [Info])))) as (F & _ & _).
    cbv zeta in F. rewrite filter_app, F. cbn [events emit]. rewrite !filter_app.
    rewrite filter_fetch_fetches. simpl. rewrite !app_nil_r. reflexivity.
  - intros i Hi. unfold sync_offsets in Hi. apply in_map_iff in Hi as [j [<- Hj]].
    apply in_seq in Hj.
    set (st := BATCH_SIZE * OUTPLUSONE OUT) in *.
    pose proof (Z.mul_div_le (deltaIndex - nextTreeIndex s) st Hst).
    pose proof (Z.div_pos (deltaIndex - nextTreeIndex s) st ltac:(lia) Hst).
    assert (Z.of_nat j <= (deltaIndex - nextTreeIndex s) / st) by lia.
    nia.
  - unfold sync_offsets. rewrite length_map, length_seq.
    set (st := BATCH_SIZE * OUTPLUSONE OUT).
    pose proof (Z.div_pos (deltaIndex - nextTreeIndex s) st ltac:(lia) Hst).
    pose proof (Z.mod_pos_bound (deltaIndex - nextTreeIndex s) st Hst).
    pose proof (Z.div_mod (deltaIndex - nextTreeIndex s) st ltac:(lia)).
    rewrite Nat2Z.inj_succ, Z2Nat.id by lia. nia.
Qed.

(** [updateStateOptimisticWorker] (client.ts lines 780-909): the worker
    reports ready to transact exactly when, in every fetched batch, no
    pending transaction decrypts to a memo of the account (batches without
    pending transactions count as ready). *)
Theorem updateStateOptimisticWorker_ready (OUT : nat) (deltaIndex : Z)
    (fetchTxs : Z -> Z -> list string) (SU : Type)
    (parseTxs : list IndexedTx.t -> list DecryptedMemo.t * SU) (applyStateUpdate : Z -> SU -> Z)
    (s : SyncState) (H : nextTreeIndex s <= deltaIndex) :
  fst (updateStateOptimisticWorker OUT deltaIndex fetchTxs SU parseTxs applyStateUpdate s)
  = forallb (fun i => batch_ready OUT SU parseTxs i (fetchTxs i BATCH_SIZE))
      (sync_offsets OUT (nextTreeIndex s) deltaIndex).
Proof.
  rewrite (worker_fetch_path OUT deltaIndex fetchTxs SU parseTxs applyStateUpdate s H). cbv zeta.
  cbn [fst]. unfold emit at 1. cbn [readyToTransact].
  destruct (processBatches_facts OUT fetchTxs SU parseTxs applyStateUpdate
              (sync_offsets OUT (nextTreeIndex s) deltaIndex)
              (emit (map (fun i => FetchTransactionsOptimistic i BATCH_SIZE)
                 (sync_offsets OUT (nextTreeIndex s) deltaIndex))
                 (mkSyncState (nextTreeIndex s) true (events s ++ [Info])))) as (_ & R & _).
  cbv zeta in R. rewrite R. reflexivity.
Qed.

(** [updateStateOptimisticWorker] (client.ts lines 780-909, the reduction
    at lines 887-895): the worker's last two effects set the last mined and
    the last pending transaction index to the maximum index of the mined,
    resp. pending, transactions of all fetched batches, -1 when there are
    none. *)
Theorem updateStateOptimisticWorker_last_indices (OUT : nat) (deltaIndex : Z)
    (fetchTxs : Z -> Z -> list string) (SU : Type)
    (parseTxs : list IndexedTx.t -> list DecryptedMemo.t * SU) (applyStateUpdate : Z -> SU -> Z)
    (s : SyncState) (H : nextTreeIndex s <= deltaIndex) :
  let offs := sync_offsets OUT (nextTreeIndex s) deltaIndex in
  let indices mined := flat_map (fun i => map IndexedTx.index
                                  (entries_spec OUT mined i 0 (fetchTxs i BATCH_SIZE))) offs in
  exists before,
    events (snd (updateStateOptimisticWorker OUT deltaIndex fetchTxs SU parseTxs applyStateUpdate s))
    = before ++ [SetLastMinedTxIndex (fold_left Z.max (indices true) (-1));
                 SetLastPendingTxIndex (fold_left Z.max (indices false) (-1))].
Proof.
  cbv zeta.
  rewrite (worker_fetch_path OUT deltaIndex fetchTxs SU parseTxs applyStateUpdate s H). cbv zeta.
  cbn [snd].
  destruct (processBatches_facts OUT fetchTxs SU parseTxs applyStateUpdate
              (sync_offsets OUT (nextTreeIndex s) deltaIndex)
              (emit (map (fun i => FetchTransactionsOptimistic i BATCH_SIZE)
                 (sync_offsets OUT (nextTreeIndex s) deltaIndex))
                 (mkSyncState (nextTreeIndex s) true (events s ++ [Info])))) as (_ & _ & B).
  cbv zeta in B. rewrite B.
  eexists. unfold emit at 1. cbn [events].
  rewrite reduce_mined with (g := fun i => map IndexedTx.index (entries_spec OUT true i 0 (fetchTxs i BATCH_SIZE))).
  - rewrite reduce_pending with (g := fun i => map IndexedTx.index (entries_spec OUT false i 0 (fetchTxs i BATCH_SIZE))).
    + reflexivity.
    + intros i. cbn [maxPendingIndex]. apply (proj2 (classifyLoop_max OUT i _ 0 emptyClassify)).
    + simpl. lia.
  - intros i. cbn [maxMinedIndex]. apply (proj1 (classifyLoop_max OUT i _ 0 emptyClassify)).
  - simpl. lia.
Qed.



(** [waitJobCompleted] (client.ts lines 251-275, with [getJob], lines
    83-93): while the relayer reports the job in a non-final state the loop
    keeps polling, without any attempt bound; at the first other answer it
    stops: "completed" returns the job's transaction hashes, and a failed
    request or a body that is not JSON throws the error of [fetch] or
    [res.json()] unchanged, without polling again. *)
Theorem waitJobCompleted_polls_until_final (jobId : string) (responses : nat -> Jobs.JobResponse)
    (k : nat) (Hpending : forall m, (m < k)%nat -> job_pending (responses m)) :
  (forall fuel, (fuel <= k)%nat -> Jobs.waitJobCompleted jobId responses fuel = Jobs.StillPolling) /\
  (forall fuel, (k < fuel)%nat ->
   forall j, responses k = Jobs.JobJson j -> Jobs.state j = "completed"%string ->
   Jobs.waitJobCompleted jobId responses fuel = Jobs.Completed (Jobs.txHash j)) /\
  (forall fuel, (k < fuel)%nat ->
   forall e, responses k = Jobs.JobFetchError e ->
   Jobs.waitJobCompleted jobId responses fuel = Jobs.Threw e).
Proof.
  unfold Jobs.waitJobCompleted.
  assert (Hp : forall m, (0 <= m < k)%nat -> job_pending (responses m)) by (intros m Hm; apply Hpending; lia).
  split; [|split].
  - intros fuel Hf. apply (proj1 (jobs_waitLoop_pending jobId responses k fuel 0 Hp)). lia.
  - intros fuel Hf j Hr Hs.
    rewrite (proj2 (jobs_waitLoop_pending jobId responses k fuel 0 Hp)); [| lia | lia |].
    + simpl. rewrite Hr. simpl. rewrite Hs. reflexivity.
    + intros [j' [Hr' [Hf' Hc']]]. rewrite Hr in Hr'. injection Hr' as <-. contradiction.
  - intros fuel Hf e Hr.
    rewrite (proj2 (jobs_waitLoop_pending jobId responses k fuel 0 Hp)); [| lia | lia |].
    + simpl. rewrite Hr. reflexivity.
    + intros [j' [Hr' _]]. rewrite Hr in Hr'. discriminate.
Qed.


(** The outcome that ends the loop at a call, if any. *)
Definition ready_final (o : Ready.UpdOutcome) : option Ready.ReadyResult :=
  match o with
  | Ready.UpdOk true => Some (Ready.Returns true)
  | Ready.UpdErr e => Some (Ready.Throws e)
  | Ready.UpdOk false => None
  end.

Lemma ready_loop_final (upd : nat -> Ready.UpdOutcome) (k : nat) (res : Ready.ReadyResult)
    (Hk : (k <= Ready.MAX_ATTEMPTS)%nat) (Hres : ready_final (upd k) = Some res) :
  forall fuel a, (a <= k)%nat -> (k < fuel + a)%nat ->
  (forall j, (a <= j < k)%nat -> upd j = Ready.UpdOk false) ->
  exists ev, Ready.waitLoop upd fuel a = Some (res, ev) /\ Ready.count_calls ev = S (k - a) /\
             (forall ms, In (Ready.Sleep ms) ev -> ms = Ready.INTERVAL_MS).
Proof.
  unfold Ready.MAX_ATTEMPTS in Hk.
  induction fuel as [|f IH]; intros a Ha Hf Hfalse; [lia|].
  destruct (Nat.eq_dec a k) as [->|Hne].
  - simpl. unfold ready_final in Hres.
    destruct (upd k) as [[|]|e]; [| discriminate |]; injection Hres as <-;
      exists [Ready.CallUpdateState]; unfold Ready.count_calls; cbn [filter List.length];
      (split; [reflexivity | split; [lia | intros ms [H|[]]; discriminate]]).
  - simpl. rewrite (Hfalse a) by lia.
    replace (Ready.MAX_ATTEMPTS <? S a)%nat with false
      by (symmetry; apply Nat.ltb_ge; unfold Ready.MAX_ATTEMPTS; lia).
    destruct (IH (S a)) as [ev [Hl [Hc Hs]]]; [lia | lia | intros j Hj; apply Hfalse; lia |].
    rewrite Hl. exists (Ready.CallUpdateState :: Ready.Sleep Ready.INTERVAL_MS :: ev).
    split; [reflexivity|]. split.
    + unfold Ready.count_calls in *. cbn [filter List.length]. lia.
    + intros ms [H|[H|H]]; [discriminate | injection H as <-; reflexivity | auto].
Qed.

(** [waitReadyToTransact] (client.ts lines 727-749): if the first [k]
    state updates report not ready and the [k]-th, within the attempt
    bound, reports ready or throws, the loop returns [true], resp.
    rethrows that error, after exactly [k + 1] state updates. *)
Theorem waitReadyToTransact_outcome (upd : nat -> Ready.UpdOutcome) (k fuel : nat)
    (Hk : (k <= Ready.MAX_ATTEMPTS)%nat) (Hfuel : (k < fuel)%nat)
    (Hnotready : forall j, (j < k)%nat -> upd j = Ready.UpdOk false) :
  (upd k = Ready.UpdOk true ->
   exists ev, Ready.waitReadyToTransact upd fuel = Some (Ready.Returns true, ev) /\
              Ready.count_calls ev = S k) /\
  (forall e, upd k = Ready.UpdErr e ->
   exists ev, Ready.waitReadyToTransact upd fuel = Some (Ready.Throws e, ev) /\
              Ready.count_calls ev = S k).
Proof.
  unfold Ready.waitReadyToTransact. split.
  - intros Hu. destruct (ready_loop_final upd k (Ready.Returns true) Hk ltac:(rewrite Hu; reflexivity)
                           fuel 0 ltac:(lia) ltac:(lia) ltac:(intros j Hj; apply Hnotready; lia))
      as [ev [Hl [Hc _]]].
    exists ev. rewrite Nat.sub_0_r in Hc. auto.
  - intros e Hu. destruct (ready_loop_final upd k (Ready.Throws e) Hk ltac:(rewrite Hu; reflexivity)
                           fuel 0 ltac:(lia) ltac:(lia) ltac:(intros j Hj; apply Hnotready; lia))
      as [ev [Hl [Hc _]]].
    exists ev. rewrite Nat.sub_0_r in Hc. auto.
Qed.

Definition notes_example : list (Z * Note) := mk_notes [1;2;3;4;5;6;7].

Lemma notesParts_chunking_witness :
  (0 < 3)%nat /\
  notesParts 3 notes_example = map notes_total (note_chunks 3 notes_example).
Proof. split; [lia|]. exact (proj1 (notesParts_chunking 3 ltac:(lia) notes_example)). Defined.

Definition state_example : ZkBobState := mkZkBobState (mk_notes [20000000; 30000000]) 0.

Lemma getTransactionParts_part_shape_witness :
  (0 < 3)%nat /\
  let result := getTransactionParts 3 state_example 15000000 1000000 in
  (List.length result <= Nat.max 1 ((List.length (usableNotes state_example) + 3 - 1) / 3))%nat /\
  Forall (fun t => fee t = 1000000 /\ accountLimit t = 0) result /\
  (accountBalance state_example < 15000000 + 1000000 ->
   Forall (fun t => 0 <= amount t) result).
Proof.
  split; [lia|].
  exact (getTransactionParts_part_shape 3 ltac:(lia) state_example
           15000000 1000000).
Defined.

Lemma getTransactionParts_within_funds_witness :
  Forall (fun '(_, n) => 0 <= b n) (usableNotes state_example) /\
  (getTransactionParts 3 state_example 45000000 1000000 = [] \/
   total_cost (getTransactionParts 3 state_example 45000000 1000000)
   <= accountBalance state_example
      + notes_total (usableNotes state_example)).
Proof.
  split; [simpl; repeat constructor; simpl; lia|].
  exact (getTransactionParts_within_funds 3 state_example
           45000000 1000000 ltac:(simpl; repeat constructor; simpl; lia)).
Defined.

Lemma feeEstimate_spec_witness :
  (0 < 3)%nat /\
  Forall (fun '(_, n) => 0 <= b n) (usableNotes state_example) /\
  feeEstimate 3 state_example 15000000 Send.Deposit
  = inr (mkFeeAmount TX_FEE TX_FEE 1 TX_FEE 0).
Proof.
  split; [lia|]. split; [simpl; repeat constructor; simpl; lia|].
  apply (proj1 (feeEstimate_spec 3 ltac:(lia) state_example 15000000
                  ltac:(simpl; repeat constructor; simpl; lia))).
  left. reflexivity.
Defined.

Lemma shielded_wei_conversion_witness :
  lookup_denominator [("tok"%string, 1000000000)] "tok"%string = Some 1000000000 /\ 0 < 1000000000 /\
  (forall x, shieldedAmountToWei [("tok"%string, 1000000000)] "tok"%string x = inr (x * 1000000000) /\
             weiToShieldedAmount [("tok"%string, 1000000000)] "tok"%string (x * 1000000000) = inr x).
Proof.
  split; [reflexivity|]. split; [lia|].
  exact (proj1 (shielded_wei_conversion [("tok"%string, 1000000000)] "tok"%string 1000000000
                  eq_refl ltac:(lia))).
Defined.

Lemma updateStateOptimisticWorker_fetch_offsets_witness :
  nextTreeIndex (mkSyncState 0 true []) <= 2560000 /\
  filter is_fetch (events (snd (updateStateOptimisticWorker 127 2560000 no_entries unit parse_nothing
                                  apply_nothing (mkSyncState 0 true []))))
  = filter is_fetch (events (mkSyncState 0 true []))
    ++ map (fun i => FetchTransactionsOptimistic i BATCH_SIZE) (sync_offsets 127 0 2560000).
Proof.
  split; [simpl; lia|].
  exact (proj1 (updateStateOptimisticWorker_fetch_offsets 127 2560000 no_entries unit parse_nothing
                  apply_nothing (mkSyncState 0 true []) ltac:(simpl; lia))).
Defined.

Lemma updateStateOptimisticWorker_ready_witness :
  nextTreeIndex (mkSyncState 0 true []) <= 2560000 /\
  fst (updateStateOptimisticWorker 127 2560000 no_entries unit parse_nothing apply_nothing
         (mkSyncState 0 true []))
  = forallb (fun i => batch_ready 127 unit parse_nothing i (no_entries i BATCH_SIZE))
      (sync_offsets 127 (nextTreeIndex (mkSyncState 0 true [])) 2560000).
Proof.
  split; [simpl; lia|].
  exact (updateStateOptimisticWorker_ready 127 2560000 no_entries unit parse_nothing apply_nothing
           (mkSyncState 0 true []) ltac:(simpl; lia)).
Defined.

Lemma updateStateOptimisticWorker_last_indices_witness :
  nextTreeIndex (mkSyncState 0 true []) <= 2560000 /\
  exists before,
    events (snd (updateStateOptimisticWorker 127 2560000 no_entries unit parse_nothing apply_nothing
                   (mkSyncState 0 true [])))
    = before ++ [SetLastMinedTxIndex (fold_left Z.max
                   (flat_map (fun i => map IndexedTx.index (entries_spec 127 true i 0 (no_entries i BATCH_SIZE)))
                      (sync_offsets 127 0 2560000)) (-1));
                 SetLastPendingTxIndex (fold_left Z.max
                   (flat_map (fun i => map IndexedTx.index (entries_spec 127 false i 0 (no_entries i BATCH_SIZE)))
                      (sync_offsets 127 0 2560000)) (-1))].
Proof.
  split; [simpl; lia|].
  exact (updateStateOptimisticWorker_last_indices 127 2560000 no_entries unit parse_nothing apply_nothing
           (mkSyncState 0 true []) ltac:(simpl; lia)).
Defined.

Definition job_responses_example (m : nat) : Jobs.JobResponse :=
  match m with
  | O => Jobs.JobJson (Jobs.mkJob "waiting" [] None)
  | _ => Jobs.JobJson (Jobs.mkJob "completed" ["0xabc"%string] None)
  end.

Lemma waitJobCompleted_polls_until_final_witness :
  (forall m, (m < 1)%nat -> job_pending (job_responses_example m)) /\
  Jobs.waitJobCompleted "7"%string job_responses_example 5 = Jobs.Completed ["0xabc"%string].
Proof.
  assert (Hp : forall m, (m < 1)%nat -> job_pending (job_responses_example m)).
  { intros m Hm. replace m with 0%nat by lia.
    exists (Jobs.mkJob "waiting" [] None). split; [reflexivity|]. split; discriminate. }
  split; [exact Hp|].
  exact (proj1 (proj2 (waitJobCompleted_polls_until_final "7"%string job_responses_example 1%nat Hp))
           5%nat ltac:(lia) (Jobs.mkJob "completed" ["0xabc"%string] None) eq_refl eq_refl).
Defined.

Definition ready_updates_example (j : nat) : Ready.UpdOutcome :=
  if (j <? 2)%nat then Ready.UpdOk false else Ready.UpdOk true.

Lemma waitReadyToTransact_outcome_witness :
  (2 <= Ready.MAX_ATTEMPTS)%nat /\ (2 < 5)%nat /\
  (forall j, (j < 2)%nat -> ready_updates_example j = Ready.UpdOk false) /\
  exists ev, Ready.waitReadyToTransact ready_updates_example 5 = Some (Ready.Returns true, ev) /\
             Ready.count_calls ev = 3%nat.
Proof.
  assert (Hn : forall j, (j < 2)%nat -> ready_updates_example j = Ready.UpdOk false).
  { intros j Hj. unfold ready_updates_example. replace (j <? 2)%nat with true by (symmetry; apply Nat.ltb_lt; exact Hj).
    reflexivity. }
  split; [unfold Ready.MAX_ATTEMPTS; lia|]. split; [lia|]. split; [exact Hn|].
  exact (proj1 (waitReadyToTransact_outcome ready_updates_example 2%nat 5%nat
                  ltac:(unfold Ready.MAX_ATTEMPTS; lia) ltac:(lia) Hn) eq_refl).
Defined.

Module SendChecks.
Import Send.

Lemma mapM_first_failure {A B : Type} (f : A -> M B) (l : list A) :
  (forall x, snd (f x) = []) ->
  (exists x, In x l /\ exists e, fst (f x) = inl e) ->
  exists e, mapM f l = (inl e, []).
Proof.
  intros Hsilent. induction l as [|x l IH]; intros [y [Hy [e He]]]; [destruct Hy|].
  simpl. destruct (f x) as [[e'|b] t] eqn:Hfx.
  - exists e'. pose proof (Hsilent x) as Hs. rewrite Hfx in Hs. simpl in Hs. subst t. reflexivity.
  - pose proof (Hsilent x) as Hs. rewrite Hfx in Hs. simpl in Hs. subst t.
    destruct Hy as [<-|Hy].
    + rewrite Hfx in He. discriminate.
    + destruct IH as [e2 He2]; [exists y; eauto|]. rewrite He2. exists e2. reflexivity.
Qed.

Section SendValidation.

Variable IN : nat.
Variable TxData : Type.
Variable txMemo : TxData -> string.
Variable createDeposit : Z -> Z -> TxData.
Variable createDepositPermittable : Z -> Z -> Z -> string -> TxData.
Variable createTransfer : list (string * Z) -> Z -> TxData.
Variable createWithdraw : Z -> string -> Z -> TxData.
Variable createMultiTransfer : list (list (string * Z) * Z) -> list TxData.
Variable createMultiWithdraw : list (Z * Z * string) -> list TxData.
Variable nullifierHex : TxData -> string.
Variable Proof : Type.
Variable proveTx : TxData -> Proof.
Variable verify : Proof -> bool.
Variable validateAddress : string -> bool.
Variable sign : string -> string.
Variable signTypedData : Z -> Z -> string.
Variable deadline : Z.
Variable jobIdOf : list (TxType * string * Proof * option string) -> string.
Variable state : ZkBobState.
Variable denominator : Z.

(** The senders of client.ts (lines 284-574) reject an amount below
    [MIN_TX_AMOUNT] with their "too small" error (kept, as in the model of
    the senders, without the interpolated minimum) before any effect: no
    state update, no proof and nothing sent to the relayer. For
    [transferMulti] this holds once the address is valid. *)
Theorem small_amount_rejected_before_effects (amountGwei : Z) (Hsmall : amountGwei < MIN_TX_AMOUNT) :
  (forall to feeGwei, validateAddress to = true ->
   transferMulti IN TxData txMemo createMultiTransfer Proof proveTx verify
     validateAddress jobIdOf state to amountGwei feeGwei
   = (inl "Transfer amount is too small"%string, [])) /\
  (forall address feeGwei,
   withdrawMulti IN TxData txMemo createMultiWithdraw Proof proveTx verify
     jobIdOf state address amountGwei feeGwei
   = (inl "Withdraw amount is too small"%string, [])) /\
  (forall fromAddress feeGwei,
   deposit TxData txMemo createDeposit nullifierHex Proof proveTx verify sign
     jobIdOf amountGwei fromAddress feeGwei = (inl "Deposit is too small"%string, [])) /\
  (forall fromAddress feeGwei,
   depositPermittable TxData txMemo createDepositPermittable Proof proveTx verify
     signTypedData deadline jobIdOf denominator amountGwei fromAddress feeGwei
   = (inl "Deposit is too small"%string, [])) /\
  (forall address feeGwei,
   withdrawSingle TxData txMemo createWithdraw Proof proveTx verify
     jobIdOf address amountGwei feeGwei = (inl "Withdraw amount is too small"%string, [])).
Proof.
  assert (Ht : tooSmall amountGwei = true) by (apply Z.ltb_lt; exact Hsmall).
  split; [|split; [|split; [|split]]].
  - intros to feeGwei Hv. unfold transferMulti. rewrite Hv, Ht. reflexivity.
  - intros address feeGwei. unfold withdrawMulti. rewrite Ht. reflexivity.
  - intros fromAddress feeGwei. unfold deposit. rewrite Ht. reflexivity.
  - intros fromAddress feeGwei. unfold depositPermittable. rewrite Ht. reflexivity.
  - intros address feeGwei. unfold withdrawSingle. rewrite Ht. reflexivity.
Qed.

(** [transferSingle] (client.ts lines 504-539) checks its
    outputs after the state update: an invalid address or a too small
    value among them throws with only the state update done; likewise
    [depositPermittable] (lines 284-334) without a [fromAddress] throws
    after the state update, before proving or signing. *)
Theorem late_validation_after_update (outsGwei : list (string * Z)) (amountGwei feeGwei : Z)
    (Hbad : exists o, In o outsGwei /\ (validateAddress (fst o) = false \/ snd o < MIN_TX_AMOUNT))
    (Hamount : MIN_TX_AMOUNT <= amountGwei) :
  (exists e, transferSingle TxData txMemo createTransfer Proof proveTx verify
               validateAddress jobIdOf outsGwei feeGwei = (inl e, [UpdateState])) /\
  depositPermittable TxData txMemo createDepositPermittable Proof proveTx verify
    signTypedData deadline jobIdOf denominator amountGwei None feeGwei
  = (inl "You must provide fromAddress for bridge deposit transaction "%string, [UpdateState]).
Proof.
  split.
  - unfold transferSingle, Send.updateState.
    destruct (mapM_first_failure
      (fun '(to, amount) =>
         if negb (validateAddress to)
         then throw (A := string * Z) "Invalid address. Expected a shielded address."
         else if tooSmall amount then throw "One of the values is too small"
         else ret (to, amount)) outsGwei) as [e He].
    + intros [to a]. destruct (negb (validateAddress to)); [reflexivity|].
      destruct (tooSmall a); reflexivity.
    + destruct Hbad as [[to a] [Hin Hb]]. exists (to, a). split; [exact Hin|].
      simpl in Hb. destruct Hb as [Hb|Hb].
      * rewrite Hb. eexists; reflexivity.
      * destruct (negb (validateAddress to)); [eexists; reflexivity|].
        replace (tooSmall a) with true by (symmetry; apply Z.ltb_lt; exact Hb).
        eexists; reflexivity.
    + exists e. unfold bind at 1. cbn [emit]. rewrite He. reflexivity.
  - unfold depositPermittable, Send.updateState.
    replace (tooSmall amountGwei) with false by (symmetry; apply Z.ltb_ge; exact Hamount).
    reflexivity.
Qed.

End SendValidation.

Lemma small_amount_rejected_before_effects_witness :
  1 < MIN_TX_AMOUNT /\
  deposit unit (fun _ => ""%string) (fun _ _ => tt) (fun _ => ""%string) unit (fun _ => tt)
    (fun _ => true) (fun s => s) (fun _ => "job"%string) 1 None 0
  = (inl "Deposit is too small"%string, []).
Proof.
  split; [unfold MIN_TX_AMOUNT; lia|].
  exact (proj1 (proj2 (proj2 (small_amount_rejected_before_effects 3 unit (fun _ => ""%string)
    (fun _ _ => tt) (fun _ _ _ _ => tt) (fun _ _ _ => tt) (fun _ => []) (fun _ => [])
    (fun _ => ""%string) unit (fun _ => tt) (fun _ => true) (fun _ => true) (fun s => s)
    (fun _ _ => ""%string) 0 (fun _ => "job"%string) (mkZkBobState [] 0) 1 1
    ltac:(unfold MIN_TX_AMOUNT; lia)))) None 0).
Defined.

Lemma late_validation_after_update_witness :
  (exists o, In o [("bad"%string, 20000000)] /\
     ((fun a => negb (String.eqb a "bad"%string)) (fst o) = false \/ snd o < MIN_TX_AMOUNT)) /\
  MIN_TX_AMOUNT <= 20000000 /\
  exists e, transferSingle unit (fun _ => ""%string) (fun _ _ => tt) unit (fun _ => tt) (fun _ => true)
              (fun a => negb (String.eqb a "bad"%string)) (fun _ => "job"%string)
              [("bad"%string, 20000000)] 0 = (inl e, [UpdateState]).
Proof.
  assert (Hb : exists o, In o [("bad"%string, 20000000)] /\
     ((fun a => negb (String.eqb a "bad"%string)) (fst o) = false \/ snd o < MIN_TX_AMOUNT)).
  { exists ("bad"%string, 20000000). split; [left; reflexivity | left; reflexivity]. }
  split; [exact Hb|]. split; [unfold MIN_TX_AMOUNT; lia|].
  exact (proj1 (late_validation_after_update unit (fun _ => ""%string) (fun _ _ _ _ => tt) (fun _ _ => tt)
    unit (fun _ => tt) (fun _ => true) (fun a => negb (String.eqb a "bad"%string)) (fun _ _ => ""%string) 0
    (fun _ => "job"%string) 0 [("bad"%string, 20000000)] 20000000 0 Hb ltac:(unfold MIN_TX_AMOUNT; lia))).
Defined.

End SendChecks.
